(** * ciclo_menstrual.py: the cycle-inference and forecasting core

    A shallow embedding of [MenstrualCycleProcessor] (src/ciclo_menstrual.py)
    and the properties its specification states about it.

    Modelling conventions.
    - A [datetime.date] is its proleptic Gregorian ordinal ([date.toordinal()]),
      a [Z]; [d + timedelta(days=n)] is [d + n] and [(d1 - d2).days] is
      [d1 - d2].  Python confines ordinals to 1..3652059 and raises
      [OverflowError] outside; this bound is NOT modelled: every statement
      below is about dates whose arithmetic stays inside that range.
    - A Python [float] is an IEEE-754 binary64 value, represented by
      [spec_float] with the library's bit-exact operations ([SFdiv], ...).
    - Exceptions are a constructor of [result]; a [while] loop takes fuel and
      answers [OutOfFuel] when it is exhausted.
    - [datetime.now().date()] is a parameter, [today].
    - [print] progress messages of the methods other than [print_summary],
      the random [uid] of an event and the constant calendar header are
      presentation only and left out; the texts of events and of the
      summary are kept without their emoji and accents. *)

From Stdlib Require Import String.
From Stdlib Require Import ZArith List Lia Bool Sorted Permutation.
From Stdlib Require Import Floats.SpecFloat.
Import ListNotations.
Open Scope Z_scope.

(** ** Python primitives *)

Module Py.

(** The exceptions the modelled code can raise. *)
Inductive exn : Type :=
| AttributeError
| IndexError
| ZeroDivisionError
| OverflowError
| ValueError.

Inductive result (A : Type) : Type :=
| Ok (a : A)
| Raise (e : exn)
| OutOfFuel.

Arguments Ok {A} a.
Arguments Raise {A} e.
Arguments OutOfFuel {A}.

(** [datetime.date], as an ordinal. *)
Definition Date : Type := Z.

(** [l[i]] for a non-negative index. *)
Definition getitem {A : Type} (l : list A) (i : nat) : result A :=
  match nth_error l i with
  | Some a => Ok a
  | None => Raise IndexError
  end.

(** Sorting by a key ([sort_values]), as a stable insertion sort; the
    code reads only the dates of what it sorts, so the order of records of
    the same date plays no part. *)
Fixpoint insert_by {A : Type} (key : A -> Z) (a : A) (l : list A) : list A :=
  match l with
  | [] => [a]
  | x :: l' => if key a <=? key x then a :: l else x :: insert_by key a l'
  end.

Fixpoint sort_by {A : Type} (key : A -> Z) (l : list A) : list A :=
  match l with
  | [] => []
  | a :: l' => insert_by key a (sort_by key l')
  end.

(** [min(l)] and [max(l)] of a list whose first element is [d]. *)
Definition min_from (d : Date) (ds : list Date) : Date := fold_left Z.min ds d.
Definition max_from (d : Date) (ds : list Date) : Date := fold_left Z.max ds d.

(** [max(l, key=key)] of a list whose first element is [c]: the first
    element with the largest key. *)
Definition max_by {A : Type} (key : A -> Z) (c : A) (cs : list A) : A :=
  fold_left (fun best x => if key x >? key best then x else best) cs c.

(** [sum(l)]. *)
Definition sum (l : list Z) : Z := fold_left Z.add l 0.

(** *** binary64 floats *)

Definition prec : Z := 53.
Definition emax : Z := 1024.

Definition float : Type := spec_float.

(** The integer [n] as an exact (not yet rounded) binary value. *)
Definition exact_int (n : Z) : float :=
  match n with
  | Z0 => S754_zero false
  | Zpos p => S754_finite false p 0
  | Zneg p => S754_finite true p 0
  end.

Definition is_zero (x : float) : bool :=
  match x with S754_zero _ => true | _ => false end.

Definition is_infinite (x : float) : bool :=
  match x with S754_infinity _ => true | _ => false end.

(** [float(n)]: round to nearest even; too large an integer raises. *)
Definition float_of_int (n : Z) : result float :=
  let x := binary_normalize prec emax n 0 false in
  if is_infinite x then Raise OverflowError else Ok x.

(** [a / b] on two integers: the correctly rounded quotient. *)
Definition int_truediv (a b : Z) : result float :=
  if b =? 0 then Raise ZeroDivisionError
  else
    let q := SFdiv prec emax (exact_int a) (exact_int b) in
    if is_infinite q then Raise OverflowError else Ok q.

(** [n / y] for an integer [n] and a float [y]: [n] is converted first. *)
Definition int_div_float (n : Z) (y : float) : result float :=
  match float_of_int n with
  | Ok x => if is_zero y then Raise ZeroDivisionError else Ok (SFdiv prec emax x y)
  | Raise e => Raise e
  | OutOfFuel => OutOfFuel
  end.

(** [n < x] for an integer [n] and a float [x]; Python compares the two
    exactly. *)
Definition int_lt_float (n : Z) (x : float) : bool :=
  match x with
  | S754_nan => false
  | S754_infinity s => negb s
  | S754_zero _ => n <? 0
  | S754_finite s m e =>
      let v := if s then Z.neg m else Z.pos m in
      match e with
      | Zneg k => n * Z.pow_pos 2 k <? v
      | _ => n <? v * 2 ^ e
      end
  end.

(** [int(x)]: truncation toward zero. *)
Definition float_to_int (x : float) : result Z :=
  match x with
  | S754_nan => Raise ValueError
  | S754_infinity _ => Raise OverflowError
  | S754_zero _ => Ok 0
  | S754_finite s m e =>
      let a := match e with
               | Zneg k => Z.pos m / Z.pow_pos 2 k
               | _ => Z.pos m * 2 ^ e
               end in
      Ok (if s then - a else a)
  end.

End Py.

Import Py.

Notation "x <- m ;; k" :=
  (match m with
   | Ok x => k
   | Raise e => Raise e
   | OutOfFuel => OutOfFuel
   end)
  (at level 61, m at next level, right associativity).

(** ** The data model *)

(** One menstrual-flow record of the health export, as [parse_health_data]
    builds it. *)
Record Observation : Type := mkObservation {
  date : Date;
  flow_intensity : string;
  raw_date : string
}.

(** The dict [identify_periods] appends. *)
Record Period : Type := mkPeriod {
  start : Date;
  end_ : Date;
  duration : Z
}.

(** The dict [calculate_cycle_phases] appends. *)
Record CyclePhase : Type := mkCyclePhase {
  cycle_number : Z;
  period_start : Date;
  period_end : Date;
  period_duration : Z;
  cycle_length : Z;
  ovulation_date : Date;
  fertile_window_start : Date;
  fertile_window_end : Date;
  pms_alert_date : Date;
  next_period_date : Date
}.

(** What [self.periods] holds: the empty list [__init__] stores, or the
    DataFrame [parse_health_data] stores. *)
Inductive periods_attr : Type :=
| empty_list
| DataFrame (rows : list Observation).

(** The instance attributes [self.periods] and [self.cycle_data]. *)
Record Processor : Type := mkProcessor {
  self_periods : periods_attr;
  self_cycle_data : list CyclePhase
}.

(** The calendar components.  [dtend] is exclusive: one day past the last
    day the event covers. *)
Inductive category : Type :=
| MENSTRUATION
| OVULATION
| FERTILITY
| PMS_ALERT
| MENSTRUATION_PREDICTED
| OVULATION_PREDICTED
| PMS_ALERT_PREDICTED.

Inductive description_text : Type :=
| Duracion (dias : Z)                (* "Duracion: {dias} dias" *)
| Prediccion (avg : float)           (* "... ciclo promedio de {avg:.1f} dias" *)
| Texto (s : string).

Record Event : Type := mkEvent {
  dtstart : Date;
  dtend : option Date;
  summary : string;
  description : description_text;
  categories : category
}.

(** What [print_summary] prints. *)
Inductive printed : Type :=
| Texto_impreso (s : string)
| Total_ciclos (n : nat)
| Duracion_promedio_ciclo (avg : float)
| Duracion_promedio_periodo (avg : float)
| Ultimo_periodo (d : Date)
| Proximo_periodo (d : Date).

Module MenstrualCycleProcessor.

Definition __init__ : Processor :=
  {| self_periods := empty_list; self_cycle_data := [] |}.

(** [parse_health_data], from the menstrual-flow records found in the
    export (reading the XML is outside the model): a non-empty record list
    is stored, sorted by date, as a DataFrame; an empty one leaves
    [self.periods] as it was. *)
Definition parse_health_data (self : Processor)
    (menstrual_flow_records : list Observation)
  : list Observation * Processor :=
  match menstrual_flow_records with
  | [] => (menstrual_flow_records, self)
  | _ :: _ =>
      (menstrual_flow_records,
       {| self_periods := DataFrame (sort_by date menstrual_flow_records);
          self_cycle_data := self_cycle_data self |})
  end.

(** [periods.append({...})] guarded by [if current_period:]. *)
Definition append_period (periods : list Period) (current_period : list Date)
  : list Period :=
  match current_period with
  | [] => periods
  | d :: ds =>
      periods ++ [ {| start := min_from d ds;
                      end_ := max_from d ds;
                      duration := Z.of_nat (length current_period) |} ]
  end.

(** The [for i, date in enumerate(sorted_dates)] loop; [todo] is what is
    left of [sorted_dates] from position [i] on. *)
Fixpoint identify_loop (sorted_dates : list Date) (i : nat) (todo : list Date)
    (periods : list Period) (current_period : list Date)
  : result (list Period * list Date) :=
  match todo with
  | [] => Ok (periods, current_period)
  | date :: todo' =>
      if Nat.eqb i 0 then
        identify_loop sorted_dates (S i) todo' periods [date]
      else
        prev_date <- getitem sorted_dates (i - 1) ;;
        if date - prev_date >? 2 then
          identify_loop sorted_dates (S i) todo'
            (append_period periods current_period) [date]
        else
          identify_loop sorted_dates (S i) todo' periods
            (current_period ++ [date])
  end.

Definition identify_periods (self : Processor) : result (list Period) :=
  match self_periods self with
  | empty_list => Raise AttributeError
  | DataFrame rows =>
      match rows with
      | [] => Ok []
      | _ :: _ =>
          let sorted_dates := sort_by (fun d => d) (map date rows) in
          st <- identify_loop sorted_dates 0 sorted_dates [] [] ;;
          Ok (append_period (fst st) (snd st))
      end
  end.

(** One turn of [for i in range(len(periods) - 1)]. *)
Definition phase_of (i : nat) (current_period next_period : Period)
  : CyclePhase :=
  let cycle_length := start next_period - start current_period in
  let ovulation_date := start next_period - 14 in
  let fertile_window_start := ovulation_date - 5 in
  let fertile_window_end := ovulation_date + 1 in
  let pms_alert_start := start next_period - 7 in
  {| cycle_number := Z.of_nat i + 1;
     period_start := start current_period;
     period_end := end_ current_period;
     period_duration := duration current_period;
     cycle_length := cycle_length;
     ovulation_date := ovulation_date;
     fertile_window_start := fertile_window_start;
     fertile_window_end := fertile_window_end;
     pms_alert_date := pms_alert_start;
     next_period_date := start next_period |}.

Fixpoint phases_loop (periods : list Period) (range : list nat)
    (cycle_phases : list CyclePhase) : result (list CyclePhase) :=
  match range with
  | [] => Ok cycle_phases
  | i :: range' =>
      current_period <- getitem periods i ;;
      next_period <- getitem periods (i + 1) ;;
      phases_loop periods range'
        (cycle_phases ++ [phase_of i current_period next_period])
  end.

(** [calculate_cycle_phases]: the phases, and [self] with [cycle_data] set
    to them.  [range(len(periods) - 1)] is empty for an empty list too. *)
Definition calculate_cycle_phases (self : Processor) (periods : list Period)
  : result (list CyclePhase * Processor) :=
  cycle_phases <- phases_loop periods (seq 0 (length periods - 1)) [] ;;
  Ok (cycle_phases,
      {| self_periods := self_periods self;
         self_cycle_data := cycle_phases |}).

(** The four events added for one historical cycle. *)
Definition historical_events (cycle : CyclePhase) : list Event :=
  [ {| dtstart := period_start cycle;
       dtend := Some (period_end cycle + 1);
       summary := "Menstruacion";
       description := Duracion (period_duration cycle);
       categories := MENSTRUATION |};
    {| dtstart := ovulation_date cycle;
       dtend := None;
       summary := "Ovulacion (estimada)";
       description := Texto "Dia de ovulacion estimado";
       categories := OVULATION |};
    {| dtstart := fertile_window_start cycle;
       dtend := Some (fertile_window_end cycle + 1);
       summary := "Ventana fertil";
       description := Texto "Periodo de mayor fertilidad";
       categories := FERTILITY |};
    {| dtstart := pms_alert_date cycle;
       dtend := None;
       summary := "Semana pre-menstrual";
       description :=
         Texto "El periodo comenzara aproximadamente en una semana";
       categories := PMS_ALERT |} ].

Definition future_period (avg_cycle_length : float)
    (period_start period_end : Date) : Event :=
  {| dtstart := period_start;
     dtend := Some (period_end + 1);
     summary := "Menstruacion (prediccion)";
     description := Prediccion avg_cycle_length;
     categories := MENSTRUATION_PREDICTED |}.

Definition ovul_event (ovulation_future : Date) : Event :=
  {| dtstart := ovulation_future;
     dtend := None;
     summary := "Ovulacion (prediccion)";
     description := Texto "Prediccion de ovulacion";
     categories := OVULATION_PREDICTED |}.

Definition pms_future_event (pms_future : Date) : Event :=
  {| dtstart := pms_future;
     dtend := None;
     summary := "Semana pre-menstrual (prediccion)";
     description :=
       Texto "El periodo comenzara aproximadamente en una semana";
     categories := PMS_ALERT_PREDICTED |}.

(** The [while future_cycles < months_future * 30 / avg_cycle_length] loop.
    [today] is [datetime.now().date()]. *)
Fixpoint forecast_loop (fuel : nat) (months_future : Z)
    (avg_cycle_length : float) (last_period : CyclePhase) (today : Date)
    (current_date : Date) (future_cycles : Z) (cal : list Event)
  : result (list Event) :=
  match fuel with
  | O => OutOfFuel
  | S fuel' =>
      bound <- int_div_float (months_future * 30) avg_cycle_length ;;
      if int_lt_float future_cycles bound then
        let period_start := current_date in
        let period_end := current_date + period_duration last_period in
        let cal := cal ++ [future_period avg_cycle_length period_start period_end] in
        let ovulation_future := period_start - 14 in
        let cal :=
          if ovulation_future >? today
          then cal ++ [ovul_event ovulation_future] else cal in
        let pms_future := period_start - 7 in
        let cal :=
          if pms_future >? today
          then cal ++ [pms_future_event pms_future] else cal in
        step <- float_to_int avg_cycle_length ;;
        forecast_loop fuel' months_future avg_cycle_length last_period today
          (current_date + step) (future_cycles + 1) cal
      else Ok cal
  end.

(** [generate_ical_calendar]; the calendar is the list of its components
    in the order they were added. *)
Definition generate_ical_calendar (fuel : nat) (cycle_phases : list CyclePhase)
    (months_future : Z) (today : Date) : result (list Event) :=
  let cal :=
    fold_left (fun cal cycle => cal ++ historical_events cycle)
      cycle_phases [] in
  match cycle_phases with
  | [] => Ok cal
  | c :: cs =>
      avg_cycle_length <-
        int_truediv (sum (map cycle_length cycle_phases))
          (Z.of_nat (length cycle_phases)) ;;
      let last_period := max_by period_start c cs in
      let current_date := next_period_date last_period in
      forecast_loop fuel months_future avg_cycle_length last_period today
        current_date 0 cal
  end.

Definition print_summary (self : Processor) : result (list printed) :=
  match self_cycle_data self with
  | [] => Ok [Texto_impreso "No hay datos de ciclo para mostrar"]
  | c :: cs =>
      let cycle_data := self_cycle_data self in
      avg_cycle <-
        int_truediv (sum (map cycle_length cycle_data))
          (Z.of_nat (length cycle_data)) ;;
      avg_period <-
        int_truediv (sum (map period_duration cycle_data))
          (Z.of_nat (length cycle_data)) ;;
      let last_period := max_by period_start c cs in
      step <- float_to_int avg_cycle ;;
      let next_predicted := next_period_date last_period + step in
      Ok [ Texto_impreso "RESUMEN DEL CICLO MENSTRUAL";
           Total_ciclos (length cycle_data);
           Duracion_promedio_ciclo avg_cycle;
           Duracion_promedio_periodo avg_period;
           Ultimo_periodo (period_start last_period);
           Proximo_periodo next_predicted ]
  end.

(** The body of the [try] of [main], from the records that
    [parse_health_data] extracted from the export up to the call of
    [save_calendar]: what was printed by [print_summary] and the calendar
    that is saved.  The reading of the XML (where a missing or malformed
    [startDate] raises) and the writing of the file are outside. *)
Definition main (fuel : nat) (menstrual_flow_records : list Observation)
    (today : Date) : result (list printed * list Event) :=
  let processor := __init__ in
  let processor := snd (parse_health_data processor menstrual_flow_records) in
  periods <- identify_periods processor ;;
  r <- calculate_cycle_phases processor periods ;;
  let cycle_phases := fst r in
  let processor := snd r in
  out <- print_summary processor ;;
  calendar <- generate_ical_calendar fuel cycle_phases 6 today ;;
  Ok (out, calendar).

End MenstrualCycleProcessor.

Import MenstrualCycleProcessor.

(** ** Vocabulary of the statements *)

(** A processor whose [self.periods] is the DataFrame of [rows]. *)
Definition loaded (rows : list Observation) (cycle_data : list CyclePhase)
  : Processor :=
  {| self_periods := DataFrame rows; self_cycle_data := cycle_data |}.

(** The maximal runs of a date list: a run is cut where the next date is
    more than 2 days after the previous one. *)
Fixpoint runs (l : list Date) : list (list Date) :=
  match l with
  | [] => []
  | x :: l' =>
      match l' with
      | [] => [[x]]
      | y :: _ =>
          if y - x >? 2 then [x] :: runs l'
          else
            match runs l' with
            | c :: cs => (x :: c) :: cs
            | [] => [[x]]
            end
      end
  end.

(** Consecutive dates of [c] are at most 2 days apart. *)
Fixpoint tight (c : list Date) : Prop :=
  match c with
  | [] => True
  | x :: c' =>
      match c' with
      | [] => True
      | y :: _ => y - x <= 2 /\ tight c'
      end
  end.

(** The period of a run of sorted dates. *)
Definition period_of_run (c : list Date) : Period :=
  {| start := hd 0 c; end_ := last c 0; duration := Z.of_nat (length c) |}.

(** Each run after another starts more than 2 days after it ends. *)
Definition apart (c c' : list Date) : Prop := last c 0 + 2 < hd 0 c'.

Definition within (p : Period) (d : Date) : bool :=
  (start p <=? d) && (d <=? end_ p).

(** The observations dated within a period, each record counted. *)
Definition observations_within (rows : list Observation) (p : Period)
  : list Date :=
  filter (within p) (map date rows).

(** The distinct dates among them. *)
Definition distinct_dates_within (rows : list Observation) (p : Period)
  : list Date :=
  nodup Z.eq_dec (observations_within rows p).

(** The dates at which the walk over sorted dates opens a new period,
    after the first: those more than 2 days after their predecessor. *)
Fixpoint splits (prev : Date) (l : list Date) : list Date :=
  match l with
  | [] => []
  | d :: l' => if d - prev >? 2 then d :: splits d l' else splits d l'
  end.

(** One phase per consecutive pair of periods, numbered from [i + 1]. *)
Fixpoint consecutive (i : nat) (periods : list Period) : list CyclePhase :=
  match periods with
  | [] => []
  | p :: periods' =>
      match periods' with
      | [] => []
      | q :: _ => phase_of i p q :: consecutive (S i) periods'
      end
  end.

Definition is_predicted_period (e : Event) : bool :=
  match categories e with MENSTRUATION_PREDICTED => true | _ => false end.

(** The predicted period events of a calendar, in order. *)
Definition predicted_periods (cal : list Event) : list Event :=
  filter is_predicted_period cal.

(** The length of an event in days: exclusive end minus start. *)
Definition event_days (e : Event) : option Z :=
  match dtend e with
  | Some d => Some (d - dtstart e)
  | None => None
  end.

(** [avg_cycle_length] as [generate_ical_calendar] computes it. *)
Definition mean_cycle_length (cycle_phases : list CyclePhase) : result float :=
  int_truediv (sum (map cycle_length cycle_phases))
    (Z.of_nat (length cycle_phases)).

(** The cycle whose period duration and next-period date the forecast
    starts from. *)
Definition latest (cycle_phases : list CyclePhase) : option CyclePhase :=
  match cycle_phases with
  | [] => None
  | c :: cs => Some (max_by period_start c cs)
  end.

(** [x > 0]. *)
Definition positive_float (x : float) : bool := SFltb (S754_zero false) x.

(** [math.ceil(x)] of a finite float. *)
Definition float_ceil (x : float) : option Z :=
  match x with
  | S754_zero _ => Some 0
  | S754_finite s m e =>
      let v := if s then Z.neg m else Z.pos m in
      Some match e with
           | Zneg k => - ((- v) / Z.pow_pos 2 k)
           | _ => v * 2 ^ e
           end
  | _ => None
  end.

(** [round(x)] of a finite float: to the nearest integer, ties to even. *)
Definition float_round (x : float) : option Z :=
  match x with
  | S754_zero _ => Some 0
  | S754_finite s m e =>
      let a :=
        match e with
        | Zneg k =>
            let d := Z.pow_pos 2 k in
            let q := Z.pos m / d in
            let r := Z.pos m mod d in
            match 2 * r ?= d with
            | Lt => q
            | Gt => q + 1
            | Eq => if Z.even q then q else q + 1
            end
        | _ => Z.pos m * 2 ^ e
        end in
      Some (if s then - a else a)
  | _ => None
  end.

(** The count as the specification words it, in exact arithmetic:
    [ceil(months_future * 30 / avg)] with [avg] the exact mean
    [total / count] of the cycle lengths, that is
    [ceil(months_future * 30 * count / total)], for [total > 0]. *)
Definition exact_forecast_count (cycle_phases : list CyclePhase)
    (months_future : Z) : Z :=
  let total := sum (map cycle_length cycle_phases) in
  let count := Z.of_nat (length cycle_phases) in
  - ((- (months_future * 30 * count)) / total).

(** The events one turn of the forecast loop adds for a period predicted
    to start on [current_date]. *)
Definition forecast_events (avg_cycle_length : float) (last_period : CyclePhase)
    (today current_date : Date) : list Event :=
  [future_period avg_cycle_length current_date
     (current_date + period_duration last_period)]
  ++ (if current_date - 14 >? today then [ovul_event (current_date - 14)] else [])
  ++ (if current_date - 7 >? today then [pms_future_event (current_date - 7)] else []).

(** The events of [n] turns, the anchor moving [step] days each turn. *)
Fixpoint forecast_turns (n : nat) (avg_cycle_length : float)
    (last_period : CyclePhase) (today current_date step : Z) : list Event :=
  match n with
  | O => []
  | S n' =>
      forecast_events avg_cycle_length last_period today current_date
      ++ forecast_turns n' avg_cycle_length last_period today
           (current_date + step) step
  end.

(** The anchors of [n] turns from [current_date]. *)
Fixpoint anchors (n : nat) (current_date step : Z) : list Date :=
  match n with
  | O => []
  | S n' => current_date :: anchors n' (current_date + step) step
  end.

(** ** Example inputs *)

Definition observation_on (d : Date) : Observation :=
  {| date := d; flow_intensity := "HKCategoryValueMenstrualFlowMedium";
     raw_date := EmptyString |}.

(** 2024-01-01 is day 738886.  Records on 2024-01-01..04 and on
    2024-01-29..02-01, in the order an export could list them. *)
Definition scenario_rows : list Observation :=
  map observation_on
    [738916; 738886; 738887; 738914; 738888; 738889; 738915; 738917].

Definition scenario_periods : list Period :=
  [ {| start := 738886; end_ := 738889; duration := 4 |};
    {| start := 738914; end_ := 738917; duration := 4 |} ].

(** Two records on 2024-01-01. *)
Definition same_day_rows : list Observation :=
  map observation_on [738886; 738886].

(** Records on 2024-01-01 and 2024-01-03. *)
Definition skipped_day_rows : list Observation :=
  map observation_on [738886; 738888].

(** A historical cycle whose period started on [d], lasted [dur] recorded
    days and was followed [len] days later by the next period. *)
Definition cycle_from (n : nat) (d : Date) (dur len : Z) : CyclePhase :=
  phase_of n {| start := d; end_ := d + dur - 1; duration := dur |}
    {| start := d + len; end_ := d + len; duration := 1 |}.

(** The one cycle of [scenario_rows]: 28 days. *)
Definition scenario_phases : list CyclePhase :=
  [cycle_from 0 738886 4 28].

(** Four cycles of 28, 29, 29 and 29 days: the mean is 28.75. *)
Definition uneven_phases : list CyclePhase :=
  [ cycle_from 0 738886 4 28; cycle_from 1 738914 4 29;
    cycle_from 2 738943 4 29; cycle_from 3 738972 4 29 ].

(** Thirteen cycles that add up to 60 days. *)
Definition short_phases : list CyclePhase :=
  map (fun k => cycle_from k (738886 + 5 * Z.of_nat k) 1
                  (if (k <? 8)%nat then 5 else 4))
    (seq 0 13).

(** Seven cycles of 21, 21, 21, 21, 22, 22 and 22 days: 150 days. *)
Definition drifting_phases : list CyclePhase :=
  [ cycle_from 0 738886 4 21; cycle_from 1 738907 4 21;
    cycle_from 2 738928 4 21; cycle_from 3 738949 4 21;
    cycle_from 4 738970 4 22; cycle_from 5 738992 4 22;
    cycle_from 6 739014 4 22 ].

(** One cycle of length 0: two "periods" given the same start. *)
Definition degenerate_phases : list CyclePhase :=
  [cycle_from 0 738886 4 0].

(** ** Vocabulary of the further properties *)

Definition category_eq_dec (a b : category) : {a = b} + {a <> b}.
Proof. decide equality. Defined.

(** The events of a calendar that carry a given category, in order. *)
Definition events_of (k : category) (cal : list Event) : list Event :=
  filter (fun e => if category_eq_dec k (categories e) then true else false)
    cal.

Definition is_predicted (e : Event) : bool :=
  match categories e with
  | MENSTRUATION_PREDICTED | OVULATION_PREDICTED | PMS_ALERT_PREDICTED => true
  | _ => false
  end.

(** What a run of [main] never ends with: an exception other than
    [OverflowError]. *)
Definition at_worst_overflow {A : Type} (r : result A) : Prop :=
  match r with
  | Raise e => e = OverflowError
  | _ => True
  end.

(** ** Sorting *)

Section Sorting.
Context {A : Type} (key : A -> Z).

Let key_le (a b : A) : Prop := key a <= key b.

Lemma insert_by_perm (a : A) (l : list A) :
  Permutation (insert_by key a l) (a :: l).
Proof.
  induction l as [|x l IH]; simpl; [reflexivity|].
  destruct (key a <=? key x); [reflexivity|].
  rewrite IH. apply perm_swap.
Qed.

Lemma sort_by_perm (l : list A) : Permutation (sort_by key l) l.
Proof.
  induction l as [|a l IH]; simpl; [constructor|].
  rewrite insert_by_perm. now constructor.
Qed.

Lemma insert_by_sorted (a : A) (l : list A) :
  StronglySorted key_le l -> StronglySorted key_le (insert_by key a l).
Proof.
  induction 1 as [|x l Hs IH Hall]; simpl.
  - repeat constructor.
  - destruct (Z.leb_spec (key a) (key x)) as [Hle|Hgt].
    + constructor; [now constructor|].
      constructor; [exact Hle|].
      eapply Forall_impl; [|exact Hall].
      unfold key_le; intros b Hb; lia.
    + constructor; [exact IH|].
      eapply Permutation_Forall; [symmetry; apply insert_by_perm|].
      constructor; [unfold key_le; lia | exact Hall].
Qed.

Lemma sort_by_sorted (l : list A) : StronglySorted key_le (sort_by key l).
Proof.
  induction l as [|a l IH]; simpl; [constructor|].
  now apply insert_by_sorted.
Qed.
End Sorting.

Lemma sort_dates_sorted (l : list Date) :
  StronglySorted Z.le (sort_by (fun d => d) l).
Proof. exact (sort_by_sorted (fun d => d) l). Qed.

Lemma filter_length_perm {A : Type} (f : A -> bool) (l l' : list A) :
  Permutation l l' -> length (filter f l) = length (filter f l').
Proof.
  induction 1 as [|x l l' _ IH|x y l|l l' l'' _ IH1 _ IH2]; simpl.
  - reflexivity.
  - destruct (f x); simpl; now rewrite IH.
  - destruct (f x), (f y); reflexivity.
  - now rewrite IH1.
Qed.

(** ** Sorted date lists *)

Lemma sorted_head_le (x : Date) (l : list Date) :
  StronglySorted Z.le (x :: l) -> forall d, In d (x :: l) -> x <= d.
Proof.
  intros Hs d [<-|Hd]; [lia|].
  apply StronglySorted_inv in Hs as [_ Hall].
  rewrite Forall_forall in Hall. now apply Hall.
Qed.

Lemma sorted_le_last (l : list Date) :
  StronglySorted Z.le l -> forall d, In d l -> d <= last l 0.
Proof.
  induction 1 as [|x l Hs IH Hall]; intros d Hd; [destruct Hd|].
  destruct l as [|y l'].
  - destruct Hd as [<-|[]]. simpl. lia.
  - change (last (x :: y :: l') 0) with (last (y :: l') 0).
    destruct Hd as [<-|Hd].
    + rewrite Forall_forall in Hall.
      transitivity y; [apply Hall; now left | apply IH; now left].
    + now apply IH.
Qed.

Lemma sorted_app_l (l l' : list Date) :
  StronglySorted Z.le (l ++ l') -> StronglySorted Z.le l.
Proof.
  induction l as [|x l IH]; simpl; intros Hs; [constructor|].
  apply StronglySorted_inv in Hs as [Hs Hall].
  constructor; [now apply IH|].
  apply Forall_app in Hall. tauto.
Qed.

Lemma sorted_app_r (l l' : list Date) :
  StronglySorted Z.le (l ++ l') -> StronglySorted Z.le l'.
Proof.
  induction l as [|x l IH]; simpl; intros Hs; [exact Hs|].
  apply StronglySorted_inv in Hs as [Hs _]. now apply IH.
Qed.

Lemma min_from_sorted (d : Date) (ds : list Date) :
  StronglySorted Z.le (d :: ds) -> min_from d ds = d.
Proof.
  unfold min_from. revert d.
  induction ds as [|y ds IH]; intros d Hs; simpl; [reflexivity|].
  assert (d <= y) by (apply (sorted_head_le _ _ Hs); simpl; auto).
  rewrite Z.min_l by assumption.
  apply IH.
  apply StronglySorted_inv in Hs as [Hs Hall].
  apply StronglySorted_inv in Hs as [Hs _].
  constructor; [exact Hs|]. now inversion Hall.
Qed.

Lemma max_from_sorted (d : Date) (ds : list Date) :
  StronglySorted Z.le (d :: ds) -> max_from d ds = last (d :: ds) 0.
Proof.
  unfold max_from. revert d.
  induction ds as [|y ds IH]; intros d Hs; [reflexivity|].
  assert (d <= y) by (apply (sorted_head_le _ _ Hs); simpl; auto).
  change (fold_left Z.max (y :: ds) d) with (fold_left Z.max ds (Z.max d y)).
  rewrite Z.max_r by assumption.
  change (last (d :: y :: ds) 0) with (last (y :: ds) 0).
  apply IH.
  now apply StronglySorted_inv in Hs as [Hs _].
Qed.

(** ** Runs *)

Lemma runs_cons_shape (y : Date) (l : list Date) :
  exists c cs, runs (y :: l) = (y :: c) :: cs.
Proof.
  destruct l as [|z l]; simpl; [now exists [], []|].
  destruct (z - y >? 2); [now eexists _, _|].
  destruct (match l with [] => _ | _ => _ end); now eexists _, _.
Qed.

Lemma runs_step (x y : Date) (l : list Date) :
  runs (x :: y :: l) =
  if y - x >? 2 then [x] :: runs (y :: l)
  else match runs (y :: l) with
       | c :: cs => (x :: c) :: cs
       | [] => [[x]]
       end.
Proof. reflexivity. Qed.

Lemma runs_tight (c : list Date) : c <> [] -> tight c -> runs c = [c].
Proof.
  induction c as [|x c IH]; intros Hne Ht; [congruence|].
  destruct c as [|y c]; [reflexivity|].
  rewrite runs_step. destruct Ht as [Hxy Ht].
  destruct (Z.gtb_spec (y - x) 2); [lia|].
  rewrite IH by (assumption || discriminate). reflexivity.
Qed.

Lemma runs_cut (c : list Date) (d : Date) (rest : list Date) :
  c <> [] -> tight c -> 2 < d - last c 0 ->
  runs (c ++ d :: rest) = c :: runs (d :: rest).
Proof.
  induction c as [|x c IH]; intros Hne Ht Hd; [congruence|].
  destruct c as [|y c].
  - simpl app. rewrite runs_step. simpl in Hd.
    destruct (Z.gtb_spec (d - x) 2); [reflexivity | lia].
  - change ((x :: y :: c) ++ d :: rest) with (x :: y :: (c ++ d :: rest)).
    rewrite runs_step. destruct Ht as [Hxy Ht].
    destruct (Z.gtb_spec (y - x) 2); [lia|].
    change (y :: c ++ d :: rest) with ((y :: c) ++ d :: rest).
    rewrite IH; [reflexivity | discriminate | assumption | exact Hd].
Qed.

Lemma tight_snoc (c : list Date) (d : Date) :
  c <> [] -> tight c -> d - last c 0 <= 2 -> tight (c ++ [d]).
Proof.
  induction c as [|x c IH]; intros Hne Ht Hd; [congruence|].
  destruct c as [|y c].
  - simpl in *. lia.
  - destruct Ht as [Hxy Ht].
    change ((x :: y :: c) ++ [d]) with (x :: y :: (c ++ [d])).
    split; [exact Hxy|].
    apply (IH ltac:(discriminate) Ht Hd).
Qed.

Lemma runs_concat (l : list Date) : concat (runs l) = l.
Proof.
  induction l as [|x l IH]; [reflexivity|].
  destruct l as [|y l]; [reflexivity|].
  rewrite runs_step.
  destruct (y - x >? 2).
  - change (concat ([x] :: runs (y :: l))) with (x :: concat (runs (y :: l))).
    now rewrite IH.
  - destruct (runs_cons_shape y l) as (c & cs & E).
    rewrite E in *.
    change (concat ((x :: y :: c) :: cs)) with (x :: concat ((y :: c) :: cs)).
    now rewrite IH.
Qed.

Lemma runs_nonempty_tight (l : list Date) :
  Forall (fun c => c <> [] /\ tight c) (runs l).
Proof.
  induction l as [|x l IH]; [constructor|].
  destruct l as [|y l]; [repeat constructor; discriminate|].
  rewrite runs_step.
  destruct (Z.gtb_spec (y - x) 2) as [Hgt|Hle].
  - constructor; [|exact IH]. split; [discriminate | exact I].
  - destruct (runs_cons_shape y l) as (c & cs & E).
    rewrite E in *. inversion IH as [|? ? [_ Hc] Hcs]; subst.
    constructor; [|exact Hcs].
    split; [discriminate|]. split; [lia | exact Hc].
Qed.

Lemma runs_adjacent_apart (l : list Date) : Sorted apart (runs l).
Proof.
  induction l as [|x l IH]; [constructor|].
  destruct l as [|y l]; [repeat constructor|].
  rewrite runs_step.
  destruct (Z.gtb_spec (y - x) 2) as [Hgt|Hle].
  - constructor; [exact IH|].
    destruct (runs_cons_shape y l) as (c & cs & E). rewrite E.
    constructor. unfold apart. simpl. lia.
  - destruct (runs_cons_shape y l) as (c & cs & E).
    rewrite E in *. apply Sorted_inv in IH as [Hs Hhd].
    constructor; [exact Hs|].
    destruct Hhd as [|c' cs' Hap]; constructor.
    unfold apart in *.
    now change (last (x :: y :: c) 0) with (last (y :: c) 0).
Qed.

Lemma apart_strongly (cs : list (list Date)) :
  Sorted apart cs -> Forall (fun c => c <> []) cs ->
  StronglySorted Z.le (concat cs) -> StronglySorted apart cs.
Proof.
  induction cs as [|c cs IH]; intros Ha Hne Hs; [constructor|].
  apply Sorted_inv in Ha as [Ha Hhd].
  inversion Hne as [|? ? Hc Hne']; subst.
  simpl in Hs. pose proof (sorted_app_r _ _ Hs) as Hs'.
  constructor; [now apply IH|].
  destruct Hhd as [|c1 cs1 Hap]; [constructor|].
  rewrite Forall_forall. intros c' Hc'.
  inversion Hne' as [|? ? Hc1 _]; subst.
  destruct c1 as [|y c1]; [congruence|].
  assert (Hin : In (hd 0 c') (concat ((y :: c1) :: cs1))).
  { apply in_concat. exists c'. split; [exact Hc'|].
    rewrite Forall_forall in Hne'. specialize (Hne' c' Hc').
    destruct c'; [congruence | now left]. }
  pose proof (sorted_head_le y _ Hs' _ Hin) as Hle.
  unfold apart in *. simpl in Hap. lia.
Qed.

Lemma Forall_fst {A : Type} (P Q : A -> Prop) (l : list A) :
  Forall (fun a => P a /\ Q a) l -> Forall P l.
Proof. apply Forall_impl. tauto. Qed.

Lemma concat_sorted_each (cs : list (list Date)) :
  StronglySorted Z.le (concat cs) -> Forall (StronglySorted Z.le) cs.
Proof.
  induction cs as [|c cs IH]; intros Hs; constructor.
  - exact (sorted_app_l _ _ Hs).
  - apply IH. exact (sorted_app_r _ _ Hs).
Qed.

(** What the maximal runs of a sorted date list satisfy. *)
Lemma runs_sorted (l : list Date) :
  StronglySorted Z.le l ->
  StronglySorted apart (runs l) /\
  Forall (fun c => c <> [] /\ StronglySorted Z.le c) (runs l).
Proof.
  intros Hs. rewrite <- (runs_concat l) in Hs.
  pose proof (Forall_fst _ _ _ (runs_nonempty_tight l)) as Hne.
  split.
  - apply apart_strongly; [apply runs_adjacent_apart | exact Hne | exact Hs].
  - apply Forall_forall. intros c Hc. split.
    + rewrite Forall_forall in Hne. now apply Hne.
    + pose proof (concat_sorted_each _ Hs) as H.
      rewrite Forall_forall in H. now apply H.
Qed.

(** ** The Period Segmenter computes the runs of the sorted dates *)

Lemma append_period_app (ps : list Period) (c : list Date) :
  append_period ps c = ps ++ append_period [] c.
Proof. destruct c; simpl; [now rewrite app_nil_r | reflexivity]. Qed.

Lemma append_period_sorted (c : list Date) :
  c <> [] -> StronglySorted Z.le c -> append_period [] c = [period_of_run c].
Proof.
  intros Hne Hs. destruct c as [|d ds]; [congruence|].
  unfold append_period, period_of_run.
  rewrite min_from_sorted, max_from_sorted by assumption. reflexivity.
Qed.

Lemma nth_error_last {A : Type} (done l : list A) (a : A) :
  done <> [] -> nth_error (done ++ l) (length done - 1) = Some (last done a).
Proof.
  induction done as [|x done IH]; intros Hne; [congruence|].
  destruct done as [|y done]; [reflexivity|].
  replace (length (x :: y :: done) - 1)%nat with (S (length (y :: done) - 1))
    by (simpl; lia).
  change (last (x :: y :: done) a) with (last (y :: done) a).
  apply IH. discriminate.
Qed.

Lemma identify_loop_runs (todo : list Date) :
  forall (done cur : list Date) (ps : list Period),
    done <> [] -> cur <> [] -> tight cur -> last done 0 = last cur 0 ->
    (st <- identify_loop (done ++ todo) (length done) todo ps cur ;;
     Ok (append_period (fst st) (snd st)))
    = Ok (ps ++ flat_map (append_period []) (runs (cur ++ todo))).
Proof.
  induction todo as [|d todo IH]; intros done cur ps Hdone Hcur Ht Hlast.
  - simpl. rewrite (app_nil_r cur), runs_tight by assumption.
    simpl. now rewrite app_nil_r, append_period_app.
  - cbn [identify_loop].
    destruct (Nat.eqb_spec (length done) 0) as [E|_].
    { destruct done; [congruence | discriminate]. }
    unfold getitem. rewrite (nth_error_last done (d :: todo) 0 Hdone).
    assert (Hsd : done ++ d :: todo = (done ++ [d]) ++ todo)
      by now rewrite <- app_assoc.
    assert (Hlen : S (length done) = length (done ++ [d]))
      by (rewrite length_app; simpl; lia).
    rewrite Hsd, Hlen. rewrite Hlast.
    destruct (Z.gtb_spec (d - last cur 0) 2) as [Hgt|Hle].
    + rewrite (IH (done ++ [d]) [d] (append_period ps cur));
        [| now destruct done | discriminate | exact I | now rewrite last_last].
      rewrite runs_cut by (assumption || lia).
      simpl flat_map. rewrite (append_period_app ps cur).
      now rewrite <- app_assoc.
    + rewrite (IH (done ++ [d]) (cur ++ [d]) ps);
        [| now destruct done | now destruct cur
         | now apply tight_snoc | now rewrite !last_last].
      now rewrite <- app_assoc.
Qed.

Lemma flat_map_period_of_run (cs : list (list Date)) :
  Forall (fun c => c <> [] /\ StronglySorted Z.le c) cs ->
  flat_map (append_period []) cs = map period_of_run cs.
Proof.
  induction 1 as [|c cs [Hne Hs] _ IH]; [reflexivity|].
  simpl. now rewrite append_period_sorted, IH.
Qed.

(** [identify_periods] on a DataFrame: one period per maximal run of the
    sorted dates. *)
Lemma identify_periods_runs (rows : list Observation)
    (cycle_data : list CyclePhase) :
  identify_periods (loaded rows cycle_data)
  = Ok (map period_of_run (runs (sort_by (fun d => d) (map date rows)))).
Proof.
  unfold identify_periods, loaded. cbn [self_periods].
  destruct rows as [|o rows]; [reflexivity|].
  set (sorted_dates := sort_by (fun d => d) (map date (o :: rows))).
  pose proof (sort_dates_sorted (map date (o :: rows))) as Hs.
  fold sorted_dates in Hs.
  assert (Hne : sorted_dates <> []).
  { intros E. pose proof (sort_by_perm (fun d => d) (map date (o :: rows))) as P.
    fold sorted_dates in P. rewrite E in P.
    apply Permutation_nil in P. discriminate. }
  destruct sorted_dates as [|d0 rest]; [congruence|].
  cbn [identify_loop Nat.eqb].
  pose proof (identify_loop_runs rest [d0] [d0] [] ltac:(discriminate)
                ltac:(discriminate) I eq_refl) as H.
  cbn [app length] in H.
  rewrite flat_map_period_of_run in H by (apply runs_sorted; exact Hs).
  exact H.
Qed.

(** ** The Cycle Phase Calculator pairs consecutive periods *)

Lemma skipn_nth_error {A : Type} (l : list A) :
  forall (i : nat) (a : A),
    nth_error l i = Some a -> skipn i l = a :: skipn (S i) l.
Proof.
  induction l as [|x l IH]; intros [|i] a H; simpl in H; try discriminate.
  - now inversion H.
  - simpl. now apply IH.
Qed.

Lemma consecutive_short (i : nat) (l : list Period) :
  (length l <= 1)%nat -> consecutive i l = [].
Proof. destruct l as [|p [|q l]]; simpl; intros H; (reflexivity || lia). Qed.

Lemma consecutive_step (i : nat) (p q : Period) (l : list Period) :
  consecutive i (p :: q :: l) = phase_of i p q :: consecutive (S i) (q :: l).
Proof. reflexivity. Qed.

Lemma phases_loop_consecutive (periods : list Period) (n : nat) :
  forall (i : nat) (acc : list CyclePhase),
    (i + n = length periods - 1)%nat ->
    phases_loop periods (seq i n) acc
    = Ok (acc ++ consecutive i (skipn i periods)).
Proof.
  induction n as [|n IH]; intros i acc Hlen.
  - simpl. rewrite consecutive_short, app_nil_r; [reflexivity|].
    rewrite length_skipn. lia.
  - cbn [seq phases_loop]. unfold getitem.
    destruct (nth_error periods i) as [p|] eqn:Ep;
      [|apply nth_error_None in Ep; lia].
    destruct (nth_error periods (i + 1)) as [q|] eqn:Eq;
      [|apply nth_error_None in Eq; lia].
    rewrite IH by lia.
    rewrite (skipn_nth_error _ _ _ Ep).
    replace (i + 1)%nat with (S i) in Eq by lia.
    rewrite (skipn_nth_error _ _ _ Eq).
    rewrite consecutive_step. now rewrite <- app_assoc.
Qed.

Lemma calculate_cycle_phases_consecutive (self : Processor)
    (periods : list Period) :
  calculate_cycle_phases self periods
  = Ok (consecutive 0 periods,
        {| self_periods := self_periods self;
           self_cycle_data := consecutive 0 periods |}).
Proof.
  unfold calculate_cycle_phases.
  now rewrite (phases_loop_consecutive periods _ 0%nat []) by lia.
Qed.

Lemma consecutive_length (periods : list Period) :
  forall i, length (consecutive i periods) = (length periods - 1)%nat.
Proof.
  induction periods as [|p periods IH]; intros i; [reflexivity|].
  destruct periods as [|q periods]; [reflexivity|].
  rewrite consecutive_step. cbn [length]. rewrite IH. simpl. lia.
Qed.

Lemma consecutive_nth (periods : list Period) :
  forall (k i : nat) (p q : Period),
    nth_error periods i = Some p -> nth_error periods (S i) = Some q ->
    nth_error (consecutive k periods) i = Some (phase_of (k + i) p q).
Proof.
  induction periods as [|p0 periods IH]; intros k [|i] p q Hp Hq;
    simpl in Hp; try discriminate.
  - destruct periods as [|q0 periods]; simpl in Hq; [discriminate|].
    inversion Hp; inversion Hq; subst. simpl. now rewrite Nat.add_0_r.
  - destruct periods as [|q0 periods]; [now destruct i|].
    rewrite consecutive_step. cbn [nth_error].
    rewrite (IH (S k) i p q Hp Hq). do 2 f_equal. lia.
Qed.

Lemma consecutive_Forall (P : CyclePhase -> Prop) :
  (forall i p q, P (phase_of i p q)) ->
  forall periods i, Forall P (consecutive i periods).
Proof.
  intros HP. induction periods as [|p periods IH]; intros i; [constructor|].
  destruct periods as [|q periods]; [constructor|].
  rewrite consecutive_step. constructor; [apply HP | apply IH].
Qed.

(** C5: for N >= 2 periods the Cycle Phase Calculator returns exactly
    N - 1 phases, the i-th from the i-th consecutive pair, in input order,
    with [cycle_length] the day difference of the two period starts; for
    fewer than 2 periods it returns the empty list.  (The order of the
    periods plays no part.) *)
Theorem C5_one_phase_per_consecutive_pair :
  forall (self : Processor) (periods : list Period),
  exists phases self',
    calculate_cycle_phases self periods = Ok (phases, self')
    /\ self_cycle_data self' = phases
    /\ length phases = (length periods - 1)%nat
    /\ (forall i p q,
          nth_error periods i = Some p -> nth_error periods (S i) = Some q ->
          exists c,
            nth_error phases i = Some c
            /\ cycle_length c = start q - start p
            /\ cycle_number c = Z.of_nat i + 1
            /\ period_start c = start p
            /\ period_end c = end_ p
            /\ period_duration c = duration p
            /\ next_period_date c = start q)
    /\ ((length periods < 2)%nat -> phases = []).
Proof.
  intros self periods.
  eexists _, _. split; [apply calculate_cycle_phases_consecutive|].
  split; [reflexivity|]. split; [apply consecutive_length|]. split.
  - intros i p q Hp Hq. eexists. split.
    + apply (consecutive_nth periods 0 i p q Hp Hq).
    + simpl. repeat split; reflexivity.
  - intros H. apply consecutive_short. lia.
Qed.

Lemma C5_one_phase_per_consecutive_pair_witness :
  exists phases self',
    calculate_cycle_phases (loaded scenario_rows []) scenario_periods
    = Ok (phases, self')
    /\ length phases = 1%nat
    /\ exists c, nth_error phases 0 = Some c /\ cycle_length c = 28.
Proof.
  destruct (C5_one_phase_per_consecutive_pair (loaded scenario_rows [])
              scenario_periods) as (phases & self' & Hc & _ & Hlen & Hnth & _).
  exists phases, self'. split; [exact Hc|]. split; [exact Hlen|].
  destruct (Hnth 0%nat _ _ eq_refl eq_refl) as (c & Hn & Hl & _).
  exists c. split; [exact Hn | exact Hl].
Defined.

(** C6: every phase the Cycle Phase Calculator produces has its ovulation
    14 days before the next period, the fertile window from 5 days before
    ovulation to 1 day after it, and the PMS alert 7 days before the next
    period. *)
Theorem C6_phase_markers :
  forall (self : Processor) (periods : list Period),
  exists phases self',
    calculate_cycle_phases self periods = Ok (phases, self')
    /\ Forall (fun c =>
                 ovulation_date c = next_period_date c - 14
                 /\ fertile_window_start c = ovulation_date c - 5
                 /\ fertile_window_end c = ovulation_date c + 1
                 /\ pms_alert_date c = next_period_date c - 7) phases.
Proof.
  intros self periods.
  eexists _, _. split; [apply calculate_cycle_phases_consecutive|].
  apply consecutive_Forall. intros i p q. simpl. repeat split; reflexivity.
Qed.

(** ** Properties of the periods of a DataFrame *)

Lemma StronglySorted_nth {A : Type} (R : A -> A -> Prop) (l : list A) :
  StronglySorted R l ->
  forall (i j : nat) (a b : A),
    (i < j)%nat -> nth_error l i = Some a -> nth_error l j = Some b -> R a b.
Proof.
  induction 1 as [|x l Hs IH Hall]; intros i j a b Hij Ha Hb.
  - now destruct i.
  - destruct j as [|j]; [lia|]. simpl in Hb.
    destruct i as [|i]; simpl in Ha.
    + inversion Ha; subst. rewrite Forall_forall in Hall.
      apply Hall. eapply nth_error_In; eassumption.
    + apply (IH i j); (assumption || lia).
Qed.

Lemma StronglySorted_map {A B : Type} (R : B -> B -> Prop) (f : A -> B)
    (l : list A) :
  StronglySorted (fun a a' => R (f a) (f a')) l -> StronglySorted R (map f l).
Proof.
  induction 1 as [|x l Hs IH Hall]; simpl; constructor; [exact IH|].
  rewrite Forall_forall in *. intros b Hb.
  apply in_map_iff in Hb as (a & <- & Ha). now apply Hall.
Qed.

Lemma run_start_le_end (c : list Date) :
  c <> [] -> StronglySorted Z.le c ->
  start (period_of_run c) <= end_ (period_of_run c).
Proof.
  intros Hne Hs. destruct c as [|d ds]; [congruence|].
  unfold period_of_run; cbn [start end_ hd].
  apply (sorted_le_last _ Hs). now left.
Qed.

Lemma within_run (c : list Date) :
  StronglySorted Z.le c -> forall d, In d c -> within (period_of_run c) d = true.
Proof.
  intros Hs d Hd. unfold within, period_of_run; cbn [start end_].
  destruct c as [|x c]; [destruct Hd|].
  apply andb_true_intro; split; apply Z.leb_le.
  - exact (sorted_head_le _ _ Hs _ Hd).
  - exact (sorted_le_last _ Hs _ Hd).
Qed.

Lemma filter_all {A : Type} (f : A -> bool) (l : list A) :
  (forall a, In a l -> f a = true) -> filter f l = l.
Proof.
  induction l as [|x l IH]; intros H; [reflexivity|].
  simpl. rewrite (H x) by now left. f_equal. apply IH.
  intros a Ha. apply H. now right.
Qed.

Lemma filter_none {A : Type} (f : A -> bool) (l : list A) :
  (forall a, In a l -> f a = false) -> filter f l = [].
Proof.
  induction l as [|x l IH]; intros H; [reflexivity|].
  simpl. rewrite (H x) by now left. apply IH.
  intros a Ha. apply H. now right.
Qed.

(** The dates of the whole list that fall within the period of a run are
    the dates of that run. *)
Lemma runs_filter (cs : list (list Date)) :
  StronglySorted apart cs ->
  Forall (fun c => c <> [] /\ StronglySorted Z.le c) cs ->
  forall c, In c cs -> filter (within (period_of_run c)) (concat cs) = c.
Proof.
  induction 1 as [|c0 cs Hs IH Hall]; intros Hcs c Hc; [destruct Hc|].
  inversion Hcs as [|? ? [Hne0 Hs0] Hcs']; subst.
  rewrite Forall_forall in Hall, Hcs'.
  cbn [concat]. rewrite filter_app.
  destruct Hc as [<-|Hc].
  - rewrite (filter_all _ c0) by (apply within_run; exact Hs0).
    rewrite filter_none; [apply app_nil_r|].
    intros d Hd. apply in_concat in Hd as (c' & Hc' & Hd).
    specialize (Hall c' Hc'). destruct (Hcs' c' Hc') as [Hne' Hs'].
    destruct c' as [|y c']; [destruct Hd|].
    pose proof (sorted_head_le _ _ Hs' _ Hd).
    unfold apart in Hall. cbn [hd] in Hall.
    unfold within, period_of_run; cbn [start end_].
    apply andb_false_intro2. apply Z.leb_gt. lia.
  - rewrite filter_none.
    + apply IH; [|exact Hc]. now apply Forall_forall.
    + intros d Hd. specialize (Hall c Hc).
      pose proof (sorted_le_last _ Hs0 _ Hd).
      unfold apart in Hall.
      unfold within, period_of_run; cbn [start end_].
      apply andb_false_intro1. apply Z.leb_gt. lia.
Qed.

Lemma consecutive_cycle_length (periods : list Period) :
  Forall (fun p => start p <= end_ p) periods ->
  StronglySorted (fun p q => end_ p + 2 < start q) periods ->
  forall i, Forall (fun c => 3 <= cycle_length c) (consecutive i periods).
Proof.
  intros Hle Hs. induction Hs as [|p periods Hs IH Hall]; intros i;
    [constructor|].
  inversion Hle as [|? ? Hp Hle']; subst.
  destruct periods as [|q periods]; [constructor|].
  rewrite consecutive_step. constructor; [|now apply IH].
  inversion Hall; subst. cbn [phase_of cycle_length]. lia.
Qed.

(** The periods of a DataFrame, with what is known of them. *)
Lemma identify_periods_spec (rows : list Observation)
    (cycle_data : list CyclePhase) :
  exists cs,
    identify_periods (loaded rows cycle_data) = Ok (map period_of_run cs)
    /\ Permutation (concat cs) (map date rows)
    /\ StronglySorted apart cs
    /\ Forall (fun c => c <> [] /\ StronglySorted Z.le c) cs
    /\ forall c, In c cs -> filter (within (period_of_run c)) (concat cs) = c.
Proof.
  exists (runs (sort_by (fun d => d) (map date rows))).
  pose proof (runs_sorted _ (sort_dates_sorted (map date rows))) as [Ha Hc].
  split; [apply identify_periods_runs|].
  split; [rewrite runs_concat; apply sort_by_perm|].
  split; [exact Ha|]. split; [exact Hc|].
  now apply runs_filter.
Qed.

Lemma identify_periods_loaded (self : Processor) (ps : list Period) :
  identify_periods self = Ok ps ->
  exists rows cycle_data, self = loaded rows cycle_data.
Proof.
  destruct self as [[|rows] cd]; unfold identify_periods; cbn [self_periods].
  - discriminate.
  - intros _. now exists rows, cd.
Qed.

(** ** The Period Segmenter: claims *)

(** Every period list [identify_periods] returns: each period ends no
    earlier than it starts, and each starts more than 2 days after the end
    of every period before it. *)
Lemma identify_periods_apart (self : Processor) (ps : list Period) :
  identify_periods self = Ok ps ->
  Forall (fun p => start p <= end_ p) ps
  /\ StronglySorted (fun p q => end_ p + 2 < start q) ps.
Proof.
  intros Hps.
  destruct (identify_periods_loaded _ _ Hps) as (rows & cd & ->).
  destruct (identify_periods_spec rows cd) as (cs & Hcs & _ & Hap & Hall & _).
  rewrite Hcs in Hps. inversion Hps; subst ps; clear Hps. split.
  - apply Forall_forall. intros p Hp.
    apply in_map_iff in Hp as (c & <- & Hc).
    rewrite Forall_forall in Hall. destruct (Hall c Hc).
    now apply run_start_le_end.
  - apply StronglySorted_map. exact Hap.
Qed.

(** C10: every period sequence the Period Segmenter returns has
    [start <= end] in each period and, for each consecutive pair, the later
    start more than 2 days after the earlier end; hence any two periods are
    disjoint and ordered by start, and every [cycle_length] the Cycle Phase
    Calculator derives from it is at least 3 days. *)
Theorem C10_segmenter_invariant :
  forall (self : Processor) (ps : list Period),
    identify_periods self = Ok ps ->
    Forall (fun p => start p <= end_ p) ps
    /\ (forall i p q,
          nth_error ps i = Some p -> nth_error ps (S i) = Some q ->
          2 < start q - end_ p)
    /\ (forall i j p q,
          (i < j)%nat -> nth_error ps i = Some p -> nth_error ps j = Some q ->
          end_ p < start q /\ start p < start q)
    /\ exists phases self',
         calculate_cycle_phases self ps = Ok (phases, self')
         /\ Forall (fun c => 3 <= cycle_length c) phases.
Proof.
  intros self ps Hps.
  destruct (identify_periods_apart self ps Hps) as [Hle Hss].
  split; [exact Hle|]. split; [|split].
  - intros i p q Hp Hq.
    pose proof (StronglySorted_nth _ _ Hss i (S i) p q ltac:(lia) Hp Hq) as H.
    cbv beta in H. lia.
  - intros i j p q Hij Hp Hq.
    pose proof (StronglySorted_nth _ _ Hss i j p q Hij Hp Hq) as H.
    rewrite Forall_forall in Hle.
    pose proof (Hle p (nth_error_In _ _ Hp)) as H'.
    cbv beta in H, H'. lia.
  - eexists _, _. split; [apply calculate_cycle_phases_consecutive|].
    now apply consecutive_cycle_length.
Qed.

Lemma C10_segmenter_invariant_witness :
  identify_periods (loaded scenario_rows []) = Ok scenario_periods
  /\ Forall (fun p => start p <= end_ p) scenario_periods
  /\ exists phases self',
       calculate_cycle_phases (loaded scenario_rows []) scenario_periods
       = Ok (phases, self')
       /\ Forall (fun c => 3 <= cycle_length c) phases.
Proof.
  split; [reflexivity|].
  destruct (C10_segmenter_invariant (loaded scenario_rows []) scenario_periods
              eq_refl) as (H1 & _ & _ & H4).
  split; [exact H1 | exact H4].
Defined.

Lemma observations_within_length (rows : list Observation) (l : list Date)
    (p : Period) :
  Permutation l (map date rows) ->
  length (observations_within rows p) = length (filter (within p) l).
Proof.
  intros P. unfold observations_within.
  symmetry. now apply filter_length_perm.
Qed.

(** C1, as the code has it: the duration of each period is the number of
    observation records dated within it, each record counted (two records
    of one day count twice); it is the number of distinct dates when no two
    records share a date; and it can differ from [end - start + 1]. *)
Theorem C1_duration_counts_records :
  (forall (rows : list Observation) (cycle_data : list CyclePhase),
    exists ps,
      identify_periods (loaded rows cycle_data) = Ok ps
      /\ Forall (fun p =>
                   duration p = Z.of_nat (length (observations_within rows p)))
           ps
      /\ (NoDup (map date rows) ->
          Forall (fun p =>
                    duration p
                    = Z.of_nat (length (distinct_dates_within rows p))) ps))
  /\ (exists p,
        identify_periods (loaded skipped_day_rows []) = Ok [p]
        /\ duration p = 2 /\ end_ p - start p + 1 = 3).
Proof.
  split.
  - intros rows cd.
    destruct (identify_periods_spec rows cd) as (cs & Hcs & HP & _ & _ & Hf).
    exists (map period_of_run cs). split; [exact Hcs|].
    assert (Hd : Forall (fun p => duration p
                           = Z.of_nat (length (observations_within rows p)))
                   (map period_of_run cs)).
    { apply Forall_forall. intros p Hp.
      apply in_map_iff in Hp as (c & <- & Hc).
      rewrite (observations_within_length rows (concat cs)) by exact HP.
      now rewrite (Hf c Hc). }
    split; [exact Hd|].
    intros Hnd. eapply Forall_impl; [|exact Hd].
    intros p ->. unfold distinct_dates_within.
    rewrite nodup_fixed_point; [reflexivity|].
    apply NoDup_filter. exact Hnd.
  - eexists. split; [reflexivity|]. split; reflexivity.
Qed.

Lemma C1_duration_counts_records_witness :
  exists ps,
    identify_periods (loaded scenario_rows []) = Ok ps
    /\ Forall (fun p =>
                 duration p
                 = Z.of_nat (length (observations_within scenario_rows p))) ps
    /\ (NoDup (map date scenario_rows) ->
        Forall (fun p =>
                  duration p
                  = Z.of_nat (length (distinct_dates_within scenario_rows p)))
          ps).
Proof. exact (proj1 C1_duration_counts_records scenario_rows []). Defined.

(** C1 as stated fails: two records of the same day make one period of
    duration 2 that holds a single distinct date. *)
Lemma C1_counterexample_same_day :
  ~ (forall (rows : list Observation) (cycle_data : list CyclePhase)
            (ps : list Period),
       identify_periods (loaded rows cycle_data) = Ok ps ->
       Forall (fun p =>
                 duration p = Z.of_nat (length (distinct_dates_within rows p)))
         ps).
Proof.
  intros H.
  specialize (H same_day_rows []
                [ {| start := 738886; end_ := 738886; duration := 2 |} ]
                eq_refl).
  inversion H as [|? ? Hd _]; subst.
  vm_compute in Hd. discriminate.
Qed.

Lemma runs_heads (l : list Date) :
  forall x, map (hd 0) (runs (x :: l)) = x :: splits x l.
Proof.
  induction l as [|y l IH]; intros x; [reflexivity|].
  rewrite runs_step. cbn [splits].
  destruct (y - x >? 2).
  - cbn [map hd]. now rewrite IH.
  - specialize (IH y).
    destruct (runs (y :: l)) as [|c cs]; [discriminate|].
    cbn [map hd] in *. inversion IH. reflexivity.
Qed.

(** The walk over the sorted dates opens a period at the first date and
    at exactly the dates more than 2 days after their predecessor. *)
Lemma segmenter_opens_on_gap (rows : list Observation)
    (cycle_data : list CyclePhase) (d0 : Date) (rest : list Date) :
  sort_by (fun d => d) (map date rows) = d0 :: rest ->
  exists ps,
    identify_periods (loaded rows cycle_data) = Ok ps
    /\ map start ps = d0 :: splits d0 rest.
Proof.
  intros E. eexists. split; [apply identify_periods_runs|].
  rewrite E, map_map. exact (runs_heads rest d0).
Qed.

(** Two observations 2 days apart make one period, 3 days apart two; one
    observation makes one period of duration 1; an empty DataFrame makes
    none. *)
Lemma segmenter_threshold_exclusive (d : Date) (cycle_data : list CyclePhase) :
  identify_periods
    (loaded [observation_on d; observation_on (d + 2)] cycle_data)
  = Ok [ {| start := d; end_ := d + 2; duration := 2 |} ]
  /\ identify_periods
       (loaded [observation_on d; observation_on (d + 3)] cycle_data)
     = Ok [ {| start := d; end_ := d; duration := 1 |};
            {| start := d + 3; end_ := d + 3; duration := 1 |} ]
  /\ identify_periods (loaded [observation_on d] cycle_data)
     = Ok [ {| start := d; end_ := d; duration := 1 |} ]
  /\ identify_periods (loaded [] cycle_data) = Ok [].
Proof.
  split; [|split; [|split]]; rewrite identify_periods_runs;
    cbn [map date observation_on sort_by insert_by].
  - destruct (Z.leb_spec d (d + 2)); [|lia].
    rewrite runs_step. destruct (Z.gtb_spec (d + 2 - d) 2); [lia|].
    reflexivity.
  - destruct (Z.leb_spec d (d + 3)); [|lia].
    rewrite runs_step. destruct (Z.gtb_spec (d + 3 - d) 2); [|lia].
    reflexivity.
  - reflexivity.
  - reflexivity.
Qed.

(** C7: the empty-input case.  An export without menstrual-flow records
    leaves [self.periods] the list [__init__] stored, and
    [identify_periods] raises [AttributeError] on it, so the run ends in
    the handler of [main] instead of with an empty period sequence. *)
Theorem C7_no_records_raises :
  identify_periods (snd (parse_health_data __init__ [])) = Raise AttributeError
  /\ forall (fuel : nat) (today : Date),
       main fuel [] today = Raise AttributeError.
Proof. split; [reflexivity | intros; reflexivity]. Qed.

(** ** Floats *)

Lemma pow_pos_gt0 (k : positive) : 0 < Z.pow_pos 2 k.
Proof. rewrite Z.pow_pos_fold. apply Z.pow_pos_nonneg; lia. Qed.

(** Against an integer, a finite float and its ceiling compare alike. *)
Lemma int_lt_float_ceil (x : float) (K : Z) :
  float_ceil x = Some K -> forall n, int_lt_float n x = (n <? K).
Proof.
  destruct x as [s|s| |s m e]; simpl; intros H n; try discriminate.
  - now inversion H.
  - inversion H; subst K; clear H.
    destruct e as [|k|k]; try reflexivity.
    set (v := if s then Z.neg m else Z.pos m).
    pose proof (pow_pos_gt0 k) as Hd. set (d := Z.pow_pos 2 k) in *.
    pose proof (Z.div_mod (- v) d ltac:(lia)) as Hdm.
    pose proof (Z.mod_pos_bound (- v) d Hd) as Hr.
    destruct (Z.ltb_spec (n * d) v), (Z.ltb_spec n (- (- v / d)));
      (reflexivity || nia).
Qed.

Lemma fexp_eq (x : Z) : fexp prec emax x = Z.max (x - 53) (-1074).
Proof. reflexivity. Qed.

Lemma shr_1_div2 (mrs : shr_record) :
  0 <= shr_m mrs -> shr_m (shr_1 mrs) = shr_m mrs / 2.
Proof.
  destruct mrs as [m r s]. cbn [shr_m]. intros Hm.
  rewrite <- Z.div2_div.
  destruct m as [|[p|p|]|p]; try reflexivity. lia.
Qed.

Lemma iter_shr_1_div (p : positive) :
  forall mrs, 0 <= shr_m mrs ->
    shr_m (iter_pos shr_1 p mrs) = shr_m mrs / 2 ^ Z.pos p.
Proof.
  assert (Hdiv : forall a b c, 0 < b -> 0 < c -> a / b / c = a / (b * c))
    by (intros; apply Z.div_div; lia).
  assert (Hnn : forall a b, 0 <= a -> 0 < b -> 0 <= a / b)
    by (intros; apply Z.div_pos; lia).
  induction p as [p IH|p IH|]; intros mrs Hm; cbn [iter_pos].
  - assert (H1 : 0 <= shr_m (shr_1 mrs))
      by (rewrite shr_1_div2 by assumption; apply Hnn; lia).
    assert (Hp : 0 < 2 ^ Z.pos p) by (apply Z.pow_pos_nonneg; lia).
    rewrite IH, IH, shr_1_div2 by (rewrite ?IH by assumption; auto).
    rewrite !Hdiv by lia. f_equal.
    replace (Z.pos p~1) with (1 + Z.pos p + Z.pos p) by lia.
    rewrite !Z.pow_add_r by lia. lia.
  - assert (Hp : 0 < 2 ^ Z.pos p) by (apply Z.pow_pos_nonneg; lia).
    rewrite IH, IH by (rewrite ?IH by assumption; auto).
    rewrite !Hdiv by lia. f_equal.
    replace (Z.pos p~0) with (Z.pos p + Z.pos p) by lia.
    rewrite !Z.pow_add_r by lia. lia.
  - now apply shr_1_div2.
Qed.

Lemma digits2_pos_le (p : positive) :
  2 ^ (Z.pos (digits2_pos p) - 1) <= Z.pos p.
Proof.
  induction p as [p IH|p IH|]; cbn [digits2_pos].
  - replace (Z.pos (Pos.succ (digits2_pos p)) - 1)
      with (1 + (Z.pos (digits2_pos p) - 1)) by lia.
    rewrite Z.pow_add_r by lia. lia.
  - replace (Z.pos (Pos.succ (digits2_pos p)) - 1)
      with (1 + (Z.pos (digits2_pos p) - 1)) by lia.
    rewrite Z.pow_add_r by lia. lia.
  - reflexivity.
Qed.

Lemma shr_record_of_loc_m (m : Z) (l : location) :
  shr_m (shr_record_of_loc m l) = m.
Proof. destruct l as [|[]]; reflexivity. Qed.

(** One shift of the rounding keeps a non-negative mantissa non-negative,
    and a positive one positive when the exponent is in range. *)
Lemma shr_fexp_mantissa (m e : Z) (l : location) :
  0 <= m ->
  0 <= shr_m (fst (shr_fexp prec emax m e l))
  /\ (1 <= m -> -1074 <= e ->
      1 <= shr_m (fst (shr_fexp prec emax m e l))
      /\ -1074 <= snd (shr_fexp prec emax m e l)).
Proof.
  intros Hm. unfold shr_fexp, shr. rewrite fexp_eq.
  destruct (Z.max (Zdigits2 m + e - 53) (-1074) - e) as [|n|n] eqn:En;
    cbn [fst snd]; rewrite ?shr_record_of_loc_m; try (split; [lia | intros; lia]).
  rewrite iter_shr_1_div by (rewrite shr_record_of_loc_m; lia).
  rewrite shr_record_of_loc_m.
  assert (Hp : 0 < 2 ^ Z.pos n) by (apply Z.pow_pos_nonneg; lia).
  split; [apply Z.div_pos; lia|].
  intros H1 He. split; [|lia].
  destruct m as [|p|p]; try lia. cbn [Zdigits2] in En.
  pose proof (digits2_pos_le p) as Hd.
  apply Z.div_le_lower_bound; [lia|].
  rewrite Z.mul_1_r. etransitivity; [|exact Hd].
  apply Z.pow_le_mono_r; lia.
Qed.

Lemma round_nearest_even_ge (m : Z) (l : location) :
  m <= round_nearest_even m l.
Proof. destruct l as [|[]]; simpl; try destruct (Z.even m); lia. Qed.

(** The result of rounding: its sign is the one given, it is not a NaN for
    a non-negative mantissa, and it is not zero for a positive mantissa
    with its exponent in range. *)
Lemma binary_round_aux_result (s : bool) (m e : Z) (l : location) :
  0 <= m ->
  (binary_round_aux prec emax s m e l = S754_zero s
   /\ ~ (1 <= m /\ -1074 <= e))
  \/ (exists m' e', binary_round_aux prec emax s m e l = S754_finite s m' e')
  \/ binary_round_aux prec emax s m e l = S754_infinity s.
Proof.
  intros Hm. unfold binary_round_aux.
  pose proof (shr_fexp_mantissa m e l Hm) as [H0 H1].
  destruct (shr_fexp prec emax m e l) as [mrs' e'] eqn:E1. cbn [fst snd] in *.
  set (m2 := round_nearest_even (shr_m mrs') (loc_of_shr_record mrs')).
  assert (Hm2 : shr_m mrs' <= m2) by apply round_nearest_even_ge.
  pose proof (shr_fexp_mantissa m2 e' loc_Exact ltac:(lia)) as [H2 H3].
  destruct (shr_fexp prec emax m2 e' loc_Exact) as [mrs'' e''] eqn:E2.
  cbn [fst snd] in *.
  destruct (shr_m mrs'') as [|m3|m3] eqn:E3.
  - left. split; [reflexivity|]. intros [Hm1 He].
    destruct (H1 Hm1 He) as [Ha Hb].
    destruct (H3 ltac:(lia) Hb). lia.
  - destruct (e'' <=? emax - prec); [right; left; now eexists _, _ | now right; right].
  - lia.
Qed.

Lemma SFdiv_core_quotient (mx my : positive) (ex ey q e' : Z) (l : location) :
  SFdiv_core_binary prec emax (Z.pos mx) ex (Z.pos my) ey = (q, e', l) ->
  0 <= q
  /\ (ex = 0 -> ey = 0 -> (my <= mx)%positive -> 1 <= q /\ -1074 <= e').
Proof.
  unfold SFdiv_core_binary. cbv zeta. rewrite fexp_eq.
  set (e0 := Z.min _ (ex - ey)).
  set (m' := match ex - ey - e0 with
             | Z0 => Z.pos mx
             | Z.pos _ => Z.shiftl (Z.pos mx) (ex - ey - e0)
             | Z.neg _ => 0
             end).
  assert (Hm' : 0 <= m'
                /\ (0 <= ex - ey - e0 -> Z.pos mx <= m')).
  { subst m'. destruct (ex - ey - e0) as [|s|s] eqn:Es.
    - lia.
    - rewrite Z.shiftl_mul_pow2 by lia.
      assert (0 < 2 ^ Z.pos s) by (apply Z.pow_pos_nonneg; lia). nia.
    - lia. }
  destruct (Z.div_eucl m' (Z.pos my)) as [q0 r0] eqn:Ed.
  intros H; inversion H; subst q0 e' l; clear H.
  assert (Hq : q = m' / Z.pos my) by (unfold Z.div; now rewrite Ed).
  split; [rewrite Hq; apply Z.div_pos; lia|].
  intros -> -> Hle. subst e0.
  split; [|lia].
  rewrite Hq. apply Z.div_le_lower_bound; [lia|].
  destruct Hm' as [_ Hm']. specialize (Hm' ltac:(lia)). lia.
Qed.

(** Dividing two finite floats: the sign of the result, and that it is
    no NaN. *)
Lemma SFdiv_finite (sx sy : bool) (mx my : positive) (ex ey : Z) :
  let q := SFdiv prec emax (S754_finite sx mx ex) (S754_finite sy my ey) in
  (q = S754_zero (xorb sx sy)
   /\ ~ (ex = 0 /\ ey = 0 /\ (my <= mx)%positive))
  \/ (exists m e, q = S754_finite (xorb sx sy) m e)
  \/ q = S754_infinity (xorb sx sy).
Proof.
  cbn [SFdiv]. cbv zeta.
  destruct (SFdiv_core_binary prec emax (Z.pos mx) ex (Z.pos my) ey)
    as [[q e'] l] eqn:E.
  destruct (SFdiv_core_quotient _ _ _ _ _ _ _ E) as [Hq Hex].
  destruct (binary_round_aux_result (xorb sx sy) q e' l Hq)
    as [[H Hn]|[H|H]]; [left|right; now left|right; now right].
  split; [exact H|]. intros (He1 & He2 & Hle). apply Hn. now apply Hex.
Qed.

Lemma SFdiv_finite_checked (sx sy : bool) (mx my : positive) (ex ey : Z)
    (x : float) :
  (let q := SFdiv prec emax (S754_finite sx mx ex) (S754_finite sy my ey) in
   if is_infinite q then Raise OverflowError else Ok q) = Ok x ->
  (exists s, x = S754_zero s) \/ (exists s m e, x = S754_finite s m e).
Proof.
  cbv zeta.
  destruct (SFdiv_finite sx sy mx my ex ey) as [[H _]|[(m & e & H)|H]];
    cbv zeta in H; rewrite H; cbn [is_infinite]; intros H'; inversion H'.
  - left. now eexists.
  - right. now eexists _, _, _.
Qed.

(** The quotient of two integers is a finite float or a zero. *)
Lemma int_truediv_finite (a b : Z) (x : float) :
  int_truediv a b = Ok x ->
  (exists s, x = S754_zero s) \/ (exists s m e, x = S754_finite s m e).
Proof.
  unfold int_truediv. destruct (Z.eqb_spec b 0) as [|Hb]; [discriminate|].
  destruct a as [|pa|pa], b as [|pb|pb]; try congruence; cbn [exact_int].
  - cbn. intros H; inversion H. left. now eexists.
  - cbn. intros H; inversion H. left. now eexists.
  - apply SFdiv_finite_checked.
  - apply SFdiv_finite_checked.
  - apply SFdiv_finite_checked.
  - apply SFdiv_finite_checked.
Qed.

Lemma int_truediv_to_int (a b : Z) (x : float) :
  int_truediv a b = Ok x -> exists step, float_to_int x = Ok step.
Proof.
  intros H. destruct (int_truediv_finite _ _ _ H) as [[s ->]|(s & m & e & ->)];
    simpl; now eexists.
Qed.

(** The quotient of an integer by a positive integer no larger than it is
    not zero. *)
Lemma int_truediv_nonzero (a b : Z) (x : float) :
  0 < b <= a -> int_truediv a b = Ok x -> is_zero x = false.
Proof.
  intros [Hb Hab]. unfold int_truediv.
  destruct (Z.eqb_spec b 0); [lia|].
  destruct a as [|pa|pa], b as [|pb|pb]; try lia. cbn [exact_int].
  destruct (SFdiv_finite false false pa pb 0 0) as [[_ Hn]|[(m & e & H)|H]].
  - exfalso. apply Hn. repeat split. lia.
  - cbv zeta in H. rewrite H. cbn. intros H'; now inversion H'.
  - cbv zeta in H. rewrite H. cbn. discriminate.
Qed.

Lemma float_of_int_nonneg (n : Z) (x : float) :
  0 <= n -> float_of_int n = Ok x ->
  x = S754_zero false \/ exists m e, x = S754_finite false m e.
Proof.
  intros Hn. unfold float_of_int, binary_normalize.
  destruct n as [|p|p]; [| |lia].
  - cbn. intros H; inversion H. now left.
  - unfold binary_round.
    destruct (shl_align p 0 _) as [mz ez].
    destruct (binary_round_aux_result false (Z.pos mz) ez loc_Exact ltac:(lia))
      as [[H _]|[(m & e & H)|H]]; rewrite H; cbn [is_infinite];
      intros H'; inversion H'; [now left | right; now eexists _, _].
Qed.

Lemma float_ceil_nonneg (m : positive) (e K : Z) :
  float_ceil (S754_finite false m e) = Some K -> 0 <= K.
Proof.
  unfold float_ceil. destruct e as [|k|k]; intros H.
  - assert (K = Z.pos m * 2 ^ 0) as -> by congruence.
    rewrite Z.pow_0_r. lia.
  - assert (K = Z.pos m * 2 ^ Z.pos k) as -> by congruence.
    assert (0 < 2 ^ Z.pos k) by (apply Z.pow_pos_nonneg; lia). nia.
  - assert (K = - (- Z.pos m / Z.pow_pos 2 k)) as -> by congruence.
    pose proof (pow_pos_gt0 k).
    assert (- Z.pos m / Z.pow_pos 2 k < 0)
      by (apply Z.div_lt_upper_bound; lia).
    lia.
Qed.

(** For a non-negative integer over a positive float, the ceiling of the
    quotient is non-negative. *)
Lemma int_div_float_ceil_nonneg (n K : Z) (m : positive) (e : Z)
    (bound : float) :
  0 <= n ->
  int_div_float n (S754_finite false m e) = Ok bound ->
  float_ceil bound = Some K -> 0 <= K.
Proof.
  intros Hn. unfold int_div_float.
  destruct (float_of_int n) as [x| |] eqn:Ex; try discriminate.
  cbn [is_zero]. intros H; inversion H; subst bound; clear H.
  destruct (float_of_int_nonneg _ _ Hn Ex) as [->|(mx & ex & ->)].
  - cbn. intros H; inversion H. lia.
  - destruct (SFdiv_finite false false mx m ex e) as [[H _]|[(m' & e' & H)|H]];
      cbv zeta in H; rewrite H; cbn [xorb].
    + intros [= <-]. lia.
    + apply float_ceil_nonneg.
    + discriminate.
Qed.

(** ** The calendar generator *)

Lemma historical_fold (cycle_phases : list CyclePhase) :
  forall cal,
    fold_left (fun cal cycle => cal ++ historical_events cycle) cycle_phases cal
    = cal ++ flat_map historical_events cycle_phases.
Proof.
  induction cycle_phases as [|c cs IH]; intros cal; cbn [fold_left flat_map].
  - now rewrite app_nil_r.
  - now rewrite IH, app_assoc.
Qed.

(** The forecast loop, for a finite bound of ceiling [K]: from
    [future_cycles = n] it makes [K - n] turns. *)
Lemma forecast_loop_turns (months_future : Z) (avg : float)
    (last_period : CyclePhase) (today : Date) (bound : float) (K step : Z) :
  int_div_float (months_future * 30) avg = Ok bound ->
  float_ceil bound = Some K ->
  float_to_int avg = Ok step ->
  forall (r fuel : nat) (n : Z) (current_date : Date) (cal : list Event),
    r = Z.to_nat (K - n) -> (r < fuel)%nat ->
    forecast_loop fuel months_future avg last_period today current_date n cal
    = Ok (cal ++ forecast_turns r avg last_period today current_date step).
Proof.
  intros Hb HK Hstep.
  induction r as [|r IH]; intros fuel n current_date cal Hr Hfuel;
    (destruct fuel as [|fuel]; [lia|]); cbn [forecast_loop];
    rewrite Hb, (int_lt_float_ceil _ _ HK).
  - destruct (Z.ltb_spec n K); [lia|]. cbn. now rewrite app_nil_r.
  - destruct (Z.ltb_spec n K); [|lia]. rewrite Hstep.
    rewrite (IH fuel (n + 1)) by lia.
    cbn [forecast_turns]. unfold forecast_events.
    destruct (current_date - 14 >? today), (current_date - 7 >? today);
      cbn [app]; rewrite <- ?app_assoc; reflexivity.
Qed.

(** [generate_ical_calendar] on a non-empty history, when the loop bound
    is a finite float of ceiling [K]: with more than [K] units of fuel it
    returns the historical events followed by [K] forecast turns. *)
Lemma generate_ical_calendar_forecast (cycle_phases : list CyclePhase)
    (months_future : Z) (today : Date) (avg bound : float) (K : Z)
    (last_period : CyclePhase) :
  latest cycle_phases = Some last_period ->
  mean_cycle_length cycle_phases = Ok avg ->
  int_div_float (months_future * 30) avg = Ok bound ->
  float_ceil bound = Some K ->
  exists step,
    float_to_int avg = Ok step
    /\ forall fuel, (Z.to_nat K < fuel)%nat ->
         generate_ical_calendar fuel cycle_phases months_future today
         = Ok (flat_map historical_events cycle_phases
               ++ forecast_turns (Z.to_nat K) avg last_period today
                    (next_period_date last_period) step).
Proof.
  intros Hlast Havg Hb HK.
  destruct (int_truediv_to_int _ _ _ Havg) as [step Hstep].
  exists step. split; [exact Hstep|]. intros fuel Hfuel.
  unfold generate_ical_calendar. rewrite historical_fold. cbn [app].
  destruct cycle_phases as [|c cs]; [discriminate|].
  unfold mean_cycle_length in Havg. rewrite Havg.
  cbn [latest] in Hlast. injection Hlast as <-.
  apply (forecast_loop_turns _ _ _ _ _ _ _ Hb HK Hstep); [|exact Hfuel].
  f_equal. lia.
Qed.

Lemma predicted_periods_app (a b : list Event) :
  predicted_periods (a ++ b) = predicted_periods a ++ predicted_periods b.
Proof. apply filter_app. Qed.

Lemma predicted_periods_historical (cycle_phases : list CyclePhase) :
  predicted_periods (flat_map historical_events cycle_phases) = [].
Proof.
  induction cycle_phases as [|c cs IH]; [reflexivity|].
  cbn [flat_map]. now rewrite predicted_periods_app, IH.
Qed.

Lemma predicted_periods_turns (avg : float) (last_period : CyclePhase)
    (today step : Z) (n : nat) :
  forall current_date,
    predicted_periods
      (forecast_turns n avg last_period today current_date step)
    = map (fun d => future_period avg d (d + period_duration last_period))
        (anchors n current_date step).
Proof.
  induction n as [|n IH]; intros current_date; [reflexivity|].
  cbn [forecast_turns anchors map]. rewrite predicted_periods_app, IH.
  unfold forecast_events.
  destruct (current_date - 14 >? today), (current_date - 7 >? today);
    reflexivity.
Qed.

Lemma anchors_length (n : nat) (step : Z) :
  forall d, length (anchors n d step) = n.
Proof. induction n as [|n IH]; intros d; simpl; [reflexivity | now rewrite IH]. Qed.

(** The predicted period events of such a calendar. *)
Lemma generate_ical_calendar_predicted (cycle_phases : list CyclePhase)
    (months_future : Z) (today : Date) (avg bound : float) (K : Z)
    (last_period : CyclePhase) :
  latest cycle_phases = Some last_period ->
  mean_cycle_length cycle_phases = Ok avg ->
  int_div_float (months_future * 30) avg = Ok bound ->
  float_ceil bound = Some K ->
  exists step cal,
    float_to_int avg = Ok step
    /\ (forall fuel, (Z.to_nat K < fuel)%nat ->
          generate_ical_calendar fuel cycle_phases months_future today = Ok cal)
    /\ predicted_periods cal
       = map (fun d => future_period avg d (d + period_duration last_period))
           (anchors (Z.to_nat K) (next_period_date last_period) step).
Proof.
  intros Hlast Havg Hb HK.
  destruct (generate_ical_calendar_forecast _ _ today _ _ _ _ Hlast Havg Hb HK)
    as (step & Hstep & Hgen).
  eexists step, _. split; [exact Hstep|]. split; [exact Hgen|].
  now rewrite predicted_periods_app, predicted_periods_historical,
    predicted_periods_turns.
Qed.

Lemma latest_nonempty (cycle_phases : list CyclePhase) :
  cycle_phases <> [] -> exists last_period, latest cycle_phases = Some last_period.
Proof. destruct cycle_phases; [congruence | intros _; now eexists]. Qed.

Lemma positive_mean (cycle_phases : list CyclePhase) (avg : float) :
  mean_cycle_length cycle_phases = Ok avg -> positive_float avg = true ->
  exists m e, avg = S754_finite false m e.
Proof.
  intros Havg Hpos.
  destruct (int_truediv_finite _ _ _ Havg) as [[s ->]|(s & m & e & ->)].
  - discriminate.
  - destruct s; [discriminate | now eexists _, _].
Qed.

(** ** The Forecast Projector: claims *)

(** C4, as the code has it: on a non-empty history with a positive average
    cycle length and a horizon of no less than 0 months the Forecast
    Projector emits exactly [ceil(months_future * 30 / avg_cycle_length)]
    predicted periods, the quotient being the binary64 float the loop test
    computes from the float average; for one historical cycle of 28 days
    and a horizon of 1 month it emits exactly 2, 28 days apart, the first
    on the known next-period date. *)
Theorem C4_forecast_count :
  (forall (cycle_phases : list CyclePhase) (months_future : Z) (today : Date)
          (avg bound : float) (K : Z),
      cycle_phases <> [] ->
      mean_cycle_length cycle_phases = Ok avg ->
      positive_float avg = true ->
      0 <= months_future ->
      int_div_float (months_future * 30) avg = Ok bound ->
      float_ceil bound = Some K ->
      exists cal,
        (forall fuel, (Z.to_nat K < fuel)%nat ->
           generate_ical_calendar fuel cycle_phases months_future today = Ok cal)
        /\ Z.of_nat (length (predicted_periods cal)) = K)
  /\ (forall (c : CyclePhase) (today : Date),
        cycle_length c = 28 ->
        exists cal,
          (forall fuel, (2 < fuel)%nat ->
             generate_ical_calendar fuel [c] 1 today = Ok cal)
          /\ map dtstart (predicted_periods cal)
             = [next_period_date c; next_period_date c + 28]).
Proof.
  split.
  - intros cycle_phases months_future today avg bound K Hne Havg Hpos Hm Hb HK.
    destruct (latest_nonempty _ Hne) as [last_period Hlast].
    destruct (generate_ical_calendar_predicted _ _ today _ _ _ _
                Hlast Havg Hb HK) as (step & cal & _ & Hgen & Hpred).
    exists cal. split; [exact Hgen|].
    rewrite Hpred, length_map, anchors_length.
    destruct (positive_mean _ _ Havg Hpos) as (m & e & ->).
    assert (Hn : 0 <= months_future * 30) by lia.
    pose proof (int_div_float_ceil_nonneg _ _ _ _ _ Hn Hb HK). lia.
  - intros c today Hc.
    assert (Havg : mean_cycle_length [c] = Ok (S754_finite false 7881299347898368 (-48)))
      by (unfold mean_cycle_length; cbn [map length]; rewrite Hc; reflexivity).
    destruct (generate_ical_calendar_predicted [c] 1 today _ _ 2 c
                eq_refl Havg eq_refl eq_refl) as (step & cal & Hstep & Hgen & Hpred).
    exists cal. split; [exact Hgen|].
    assert (step = 28) as -> by (cbn in Hstep; congruence).
    rewrite Hpred. reflexivity.
Qed.

Lemma C4_forecast_count_witness :
  exists cal,
    (forall fuel, (Z.to_nat 2 < fuel)%nat ->
       generate_ical_calendar fuel scenario_phases 1 738900 = Ok cal)
    /\ Z.of_nat (length (predicted_periods cal)) = 2.
Proof.
  apply (proj1 C4_forecast_count scenario_phases 1 738900
           (S754_finite false 7881299347898368 (-48))
           (S754_finite false 4825285315039817 (-52)) 2).
  - discriminate.
  - reflexivity.
  - reflexivity.
  - lia.
  - reflexivity.
  - reflexivity.
Defined.

(** C4 as stated fails when the quotient is taken exactly: seven cycles
    that add up to 150 days and a horizon of 5 months give the float
    quotient [150 / (150 / 7) = 7.000000000000001] and 8 predicted periods,
    where [ceil(5 * 30 / (150 / 7))] is 7. *)
Lemma C4_counterexample_exact_quotient :
  ~ (forall (fuel : nat) (cycle_phases : list CyclePhase)
            (months_future : Z) (today : Date) (cal : list Event),
       cycle_phases <> [] ->
       0 < sum (map cycle_length cycle_phases) ->
       generate_ical_calendar fuel cycle_phases months_future today = Ok cal ->
       Z.of_nat (length (predicted_periods cal))
       = exact_forecast_count cycle_phases months_future).
Proof.
  intros H.
  assert (E : exists cal,
             generate_ical_calendar 9 drifting_phases 5 738900 = Ok cal
             /\ length (predicted_periods cal) = 8%nat).
  { eexists. split; [vm_compute; reflexivity | reflexivity]. }
  destruct E as (cal & Hgen & Hlen).
  specialize (H 9%nat drifting_phases 5 738900 cal
                ltac:(discriminate) ltac:(reflexivity) Hgen).
  rewrite Hlen in H. vm_compute in H. discriminate H.
Qed.

(** The ceiling is of the float quotient, not of the exact one: thirteen
    cycles that add up to 60 days and a horizon of 2 months give
    [60 / (60 / 13) = 13.000000000000002] and 14 predicted periods, where
    the exact quotient is 13. *)
Lemma forecast_count_float_quotient :
  mean_cycle_length short_phases
  = Ok (S754_finite false 5196461108504418 (-50))
  /\ int_div_float (2 * 30) (S754_finite false 5196461108504418 (-50))
     = Ok (S754_finite false 7318349394477057 (-49))
  /\ float_ceil (S754_finite false 7318349394477057 (-49)) = Some 14
  /\ (exists cal,
        generate_ical_calendar 15 short_phases 2 738900 = Ok cal
        /\ length (predicted_periods cal) = 14%nat)
  /\ 2 * 30 * 13 = 13 * sum (map cycle_length short_phases).
Proof.
  split; [reflexivity|]. split; [reflexivity|]. split; [reflexivity|].
  split; [|reflexivity].
  eexists. split; [vm_compute; reflexivity | reflexivity].
Qed.

(** [int(x)] truncates toward zero: it is the ceiling of a negative [x],
    and the ceiling or one less for a positive [x]. *)
Lemma float_to_int_truncates (s : bool) (m : positive) (e step K : Z) :
  float_to_int (S754_finite s m e) = Ok step ->
  float_ceil (S754_finite s m e) = Some K ->
  if s then step = K else K - 1 <= step <= K.
Proof.
  unfold float_to_int, float_ceil. intros Hs HK.
  destruct e as [|k|k].
  - assert (step = if s then - (Z.pos m * 2 ^ 0) else Z.pos m * 2 ^ 0)
      as -> by congruence.
    assert (K = (if s then Z.neg m else Z.pos m) * 2 ^ 0) as -> by congruence.
    destruct s; lia.
  - assert (step = if s then - (Z.pos m * 2 ^ Z.pos k)
                   else Z.pos m * 2 ^ Z.pos k) as -> by congruence.
    assert (K = (if s then Z.neg m else Z.pos m) * 2 ^ Z.pos k)
      as -> by congruence.
    destruct s; lia.
  - assert (step = if s then - (Z.pos m / Z.pow_pos 2 k)
                   else Z.pos m / Z.pow_pos 2 k) as -> by congruence.
    assert (K = - (- (if s then Z.neg m else Z.pos m) / Z.pow_pos 2 k))
      as -> by congruence.
    pose proof (pow_pos_gt0 k) as Hd. set (d := Z.pow_pos 2 k) in *.
    destruct s.
    + replace (- Z.neg m) with (Z.pos m) by lia. lia.
    + pose proof (Z.div_mod (Z.pos m) d ltac:(lia)).
      pose proof (Z.mod_pos_bound (Z.pos m) d Hd).
      pose proof (Z.div_mod (- Z.pos m) d ltac:(lia)).
      pose proof (Z.mod_pos_bound (- Z.pos m) d Hd).
      nia.
Qed.

(** C2, as the code has it: the average is the float quotient of the sum
    of the cycle lengths by their number, kept as it is for the loop bound
    and for the text of every predicted event, and at every turn the anchor
    moves by [int(avg_cycle_length)] days, the average truncated toward
    zero. *)
Theorem C2_anchor_advances_by_truncated_mean :
  forall (cycle_phases : list CyclePhase) (months_future : Z) (today : Date)
         (avg bound : float) (K : Z) (last_period : CyclePhase),
    latest cycle_phases = Some last_period ->
    mean_cycle_length cycle_phases = Ok avg ->
    int_div_float (months_future * 30) avg = Ok bound ->
    float_ceil bound = Some K ->
    exists step cal,
      float_to_int avg = Ok step
      /\ (forall fuel, (Z.to_nat K < fuel)%nat ->
            generate_ical_calendar fuel cycle_phases months_future today
            = Ok cal)
      /\ map dtstart (predicted_periods cal)
         = anchors (Z.to_nat K) (next_period_date last_period) step
      /\ Forall (fun e => description e = Prediccion avg)
           (predicted_periods cal).
Proof.
  intros cycle_phases months_future today avg bound K last_period
    Hlast Havg Hb HK.
  destruct (generate_ical_calendar_predicted _ _ today _ _ _ _
              Hlast Havg Hb HK) as (step & cal & Hstep & Hgen & Hpred).
  exists step, cal. split; [exact Hstep|]. split; [exact Hgen|].
  rewrite Hpred. split.
  - rewrite map_map. cbn [future_period dtstart]. apply map_id.
  - apply Forall_forall. intros e He.
    apply in_map_iff in He as (d & <- & _). reflexivity.
Qed.

Lemma C2_anchor_advances_by_truncated_mean_witness :
  exists step cal,
    float_to_int (S754_finite false 8092405580431360 (-48)) = Ok step
    /\ (forall fuel, (Z.to_nat 2 < fuel)%nat ->
          generate_ical_calendar fuel uneven_phases 1 738900 = Ok cal)
    /\ map dtstart (predicted_periods cal)
       = anchors (Z.to_nat 2) 739001 step
    /\ Forall (fun e => description e
                        = Prediccion (S754_finite false 8092405580431360 (-48)))
         (predicted_periods cal).
Proof.
  apply (C2_anchor_advances_by_truncated_mean uneven_phases 1 738900
           (S754_finite false 8092405580431360 (-48))
           (S754_finite false 4699408306821387 (-52)) 2
           (cycle_from 3 738972 4 29)).
  - reflexivity.
  - reflexivity.
  - reflexivity.
  - reflexivity.
Defined.

(** C2 as stated fails: for cycles of 28, 29, 29 and 29 days the mean is
    28.75, which rounds to 29, and the predicted periods are 28 days
    apart. *)
Lemma C2_counterexample_truncation :
  ~ (forall (fuel : nat) (cycle_phases : list CyclePhase)
            (months_future : Z) (today : Date) (cal : list Event)
            (avg : float) (r : Z),
       generate_ical_calendar fuel cycle_phases months_future today = Ok cal ->
       mean_cycle_length cycle_phases = Ok avg ->
       float_round avg = Some r ->
       forall i e1 e2,
         nth_error (predicted_periods cal) i = Some e1 ->
         nth_error (predicted_periods cal) (S i) = Some e2 ->
         dtstart e2 - dtstart e1 = r).
Proof.
  intros H.
  assert (E : exists cal e1 e2,
             generate_ical_calendar 3 uneven_phases 1 738900 = Ok cal
             /\ nth_error (predicted_periods cal) 0 = Some e1
             /\ nth_error (predicted_periods cal) 1 = Some e2
             /\ dtstart e2 - dtstart e1 = 28).
  { eexists _, _, _. split; [vm_compute; reflexivity|].
    split; [vm_compute; reflexivity|].
    split; [vm_compute; reflexivity|]. reflexivity. }
  destruct E as (cal & e1 & e2 & Hgen & H1 & H2 & Hd).
  specialize (H 3%nat uneven_phases 1 738900 cal
                (S754_finite false 8092405580431360 (-48)) 29
                Hgen eq_refl eq_refl 0%nat e1 e2 H1 H2).
  lia.
Qed.

(** The event of a historical period covers the days from its start to
    its end, both included. *)
Lemma historical_period_days (cycle : CyclePhase) :
  map event_days (filter (fun e => match categories e with
                                   | MENSTRUATION => true
                                   | _ => false
                                   end) (historical_events cycle))
  = [Some (period_end cycle - period_start cycle + 1)].
Proof. cbn. f_equal. f_equal. lia. Qed.

(** Every predicted period event covers one day more than the period
    duration it is built from. *)
Lemma predicted_period_days (cycle_phases : list CyclePhase)
    (months_future : Z) (today : Date) (avg bound : float) (K : Z)
    (last_period : CyclePhase) :
  latest cycle_phases = Some last_period ->
  mean_cycle_length cycle_phases = Ok avg ->
  int_div_float (months_future * 30) avg = Ok bound ->
  float_ceil bound = Some K ->
  exists cal,
    (forall fuel, (Z.to_nat K < fuel)%nat ->
       generate_ical_calendar fuel cycle_phases months_future today = Ok cal)
    /\ Forall (fun e => event_days e = Some (period_duration last_period + 1))
         (predicted_periods cal).
Proof.
  intros Hlast Havg Hb HK.
  destruct (generate_ical_calendar_predicted _ _ today _ _ _ _
              Hlast Havg Hb HK) as (step & cal & _ & Hgen & Hpred).
  exists cal. split; [exact Hgen|].
  rewrite Hpred. apply Forall_forall. intros e He.
  apply in_map_iff in He as (d & <- & _).
  unfold event_days, future_period; cbn [dtend dtstart]. f_equal. lia.
Qed.

(** C3: the code at the scenario of the specification.  The last
    historical period lasted 4 days (2024-01-01..04, an event of 4 days),
    and each predicted period event covers 5. *)
Theorem C3_predicted_period_one_day_longer :
  exists cal,
    generate_ical_calendar 3 scenario_phases 1 738900 = Ok cal
    /\ map event_days (predicted_periods cal) = [Some 5; Some 5]
    /\ option_map period_duration (latest scenario_phases) = Some 4
    /\ map event_days (firstn 1 cal) = [Some 4].
Proof.
  eexists. split; [vm_compute; reflexivity|].
  split; [reflexivity|]. split; reflexivity.
Qed.

(** C8: with 0 or 1 period the phase list is empty, [print_summary]
    prints its no-data line and returns, and the calendar has no event;
    the forecast loop is not entered, whatever the horizon and with no
    fuel at all. *)
Theorem C8_empty_history_degrades :
  forall (self : Processor) (periods : list Period),
    (length periods <= 1)%nat ->
    exists self',
      calculate_cycle_phases self periods = Ok ([], self')
      /\ print_summary self'
         = Ok [Texto_impreso "No hay datos de ciclo para mostrar"]
      /\ forall (fuel : nat) (months_future : Z) (today : Date),
           generate_ical_calendar fuel [] months_future today = Ok [].
Proof.
  intros self periods Hlen.
  rewrite calculate_cycle_phases_consecutive.
  rewrite (consecutive_short 0 periods Hlen).
  eexists. split; [reflexivity|]. split; reflexivity.
Qed.

Lemma C8_empty_history_degrades_witness :
  exists self',
    calculate_cycle_phases (loaded [observation_on 738955] [])
      [ {| start := 738955; end_ := 738955; duration := 1 |} ]
    = Ok ([], self')
    /\ print_summary self'
       = Ok [Texto_impreso "No hay datos de ciclo para mostrar"]
    /\ forall (fuel : nat) (months_future : Z) (today : Date),
         generate_ical_calendar fuel [] months_future today = Ok [].
Proof.
  apply (C8_empty_history_degrades (loaded [observation_on 738955] [])
           [ {| start := 738955; end_ := 738955; duration := 1 |} ]).
  simpl. lia.
Defined.

(** ** The division of the loop test *)

Lemma sum_from (l : list Z) : forall a, fold_left Z.add l a = a + sum l.
Proof.
  unfold sum. induction l as [|x l IH]; intros a; cbn [fold_left]; [lia|].
  rewrite IH, (IH (0 + x)). lia.
Qed.

Lemma sum_cons (x : Z) (l : list Z) : sum (x :: l) = x + sum l.
Proof. unfold sum at 1. cbn [fold_left]. rewrite sum_from. lia. Qed.

Lemma sum_cycle_length_ge (cycle_phases : list CyclePhase) :
  Forall (fun c => 3 <= cycle_length c) cycle_phases ->
  3 * Z.of_nat (length cycle_phases) <= sum (map cycle_length cycle_phases).
Proof.
  induction 1 as [|c cs Hc _ IH]; [reflexivity|].
  cbn [map]. rewrite sum_cons. cbn [length]. lia.
Qed.

Lemma float_of_int_raises (n : Z) (e : exn) :
  float_of_int n = Raise e -> e = OverflowError.
Proof.
  unfold float_of_int. destruct (is_infinite _); congruence.
Qed.

(** With a non-zero average the forecast loop does not raise
    [ZeroDivisionError]. *)
Lemma forecast_loop_no_zero_division (months_future : Z) (avg : float)
    (last_period : CyclePhase) (today : Date) :
  is_zero avg = false ->
  forall (fuel : nat) (current_date : Date) (n : Z) (cal : list Event),
    forecast_loop fuel months_future avg last_period today current_date n cal
    <> Raise ZeroDivisionError.
Proof.
  intros Hz. induction fuel as [|fuel IH]; intros current_date n cal;
    cbn [forecast_loop]; [discriminate|].
  unfold int_div_float. rewrite Hz.
  destruct (float_of_int (months_future * 30)) as [x|e|] eqn:Ex.
  - destruct (int_lt_float n (SFdiv prec emax x avg)); [|discriminate].
    destruct avg as [s|s| |s m e]; cbn [float_to_int];
      try discriminate; apply IH.
  - apply float_of_int_raises in Ex. subst e. discriminate.
  - discriminate.
Qed.

(** C9, as the code has it: the average is not guarded.  On a non-empty
    history whose cycle lengths add up to 0 the loop test divides by 0.0
    and the call raises [ZeroDivisionError] ([OverflowError] when
    [months_future * 30] is too large for a float): no calendar is
    returned.  On the phases derived from Period Segmenter output the
    average is not zero and no call raises [ZeroDivisionError]. *)
Theorem C9_zero_average_raises :
  (forall (fuel : nat) (cycle_phases : list CyclePhase) (months_future : Z)
          (today : Date),
      cycle_phases <> [] ->
      sum (map cycle_length cycle_phases) = 0 ->
      generate_ical_calendar (S fuel) cycle_phases months_future today
      = (x <- float_of_int (months_future * 30) ;; Raise ZeroDivisionError))
  /\ (forall (self : Processor) (ps : list Period),
        identify_periods self = Ok ps ->
        exists cycle_phases self',
          calculate_cycle_phases self ps = Ok (cycle_phases, self')
          /\ forall (fuel : nat) (months_future : Z) (today : Date),
               generate_ical_calendar fuel cycle_phases months_future today
               <> Raise ZeroDivisionError).
Proof.
  split.
  - intros fuel cycle_phases months_future today Hne Hsum.
    unfold generate_ical_calendar.
    destruct cycle_phases as [|c cs]; [congruence|].
    rewrite Hsum. cbn [length]. rewrite Nat2Z.inj_succ.
    unfold int_truediv.
    destruct (Z.eqb_spec (Z.succ (Z.of_nat (length cs))) 0) as [|_]; [lia|].
    destruct (Z.succ (Z.of_nat (length cs))) as [|p|p] eqn:En; try lia.
    cbn [exact_int SFdiv xorb is_infinite forecast_loop].
    unfold int_div_float. cbn [is_zero].
    destruct (float_of_int (months_future * 30)); reflexivity.
  - intros self ps Hps.
    destruct (identify_periods_apart self ps Hps) as [Hle Hss].
    pose proof (consecutive_cycle_length ps Hle Hss 0%nat) as Hall.
    set (phases := consecutive 0 ps) in *.
    eexists phases, _. split; [apply calculate_cycle_phases_consecutive|].
    intros fuel months_future today.
    unfold generate_ical_calendar.
    clearbody phases.
    pose proof (sum_cycle_length_ge phases Hall) as Hs.
    destruct phases as [|c cs]; [discriminate|].
    set (total := sum (map cycle_length (c :: cs))) in *.
    set (count := Z.of_nat (length (c :: cs))) in *.
    assert (Hlen : 0 < count <= total)
      by (subst count; cbn [length] in *; lia).
    destruct (int_truediv total count) as [avg|e|] eqn:Eavg.
    + apply forecast_loop_no_zero_division.
      exact (int_truediv_nonzero _ _ _ Hlen Eavg).
    + unfold int_truediv in Eavg.
      destruct (Z.eqb_spec count 0); [lia|].
      destruct (is_infinite _); congruence.
    + discriminate.
Qed.

Lemma C9_zero_average_raises_witness :
  generate_ical_calendar 1 degenerate_phases 6 738900
  = (x <- float_of_int (6 * 30) ;; Raise ZeroDivisionError)
  /\ exists cycle_phases self',
       calculate_cycle_phases (loaded scenario_rows []) scenario_periods
       = Ok (cycle_phases, self')
       /\ forall (fuel : nat) (months_future : Z) (today : Date),
            generate_ical_calendar fuel cycle_phases months_future today
            <> Raise ZeroDivisionError.
Proof.
  split.
  - apply (proj1 C9_zero_average_raises 0%nat degenerate_phases 6 738900).
    + discriminate.
    + reflexivity.
  - apply (proj2 C9_zero_average_raises (loaded scenario_rows [])
             scenario_periods).
    reflexivity.
Defined.

(** C9 as stated fails: on one cycle of length 0 the call raises
    [ZeroDivisionError]; with no amount of fuel does it return a calendar
    without forecast. *)
Lemma C9_counterexample_no_guard :
  generate_ical_calendar 1 degenerate_phases 6 738900
  = Raise ZeroDivisionError
  /\ ~ (forall (cycle_phases : list CyclePhase) (months_future : Z)
               (today : Date) (avg : float),
          mean_cycle_length cycle_phases = Ok avg ->
          is_zero avg = true ->
          exists fuel cal,
            generate_ical_calendar fuel cycle_phases months_future today
            = Ok cal
            /\ predicted_periods cal = []).
Proof.
  split; [reflexivity|].
  intros H.
  destruct (H degenerate_phases 6 738900 (S754_zero false) eq_refl eq_refl)
    as (fuel & cal & Hgen & _).
  destruct fuel as [|fuel]; discriminate Hgen.
Qed.

(** ** Further properties of the Period Segmenter *)

Lemma sorted_perm_unique (l1 : list Date) :
  forall l2,
    StronglySorted Z.le l1 -> StronglySorted Z.le l2 -> Permutation l1 l2 ->
    l1 = l2.
Proof.
  induction l1 as [|x l1 IH]; intros l2 H1 H2 P.
  - apply Permutation_nil in P. now subst.
  - destruct l2 as [|y l2];
      [apply Permutation_sym, Permutation_nil in P; discriminate|].
    assert (x = y) as <-.
    { pose proof (sorted_head_le _ _ H1 y
                    (Permutation_in _ (Permutation_sym P) (or_introl eq_refl))).
      pose proof (sorted_head_le _ _ H2 x
                    (Permutation_in _ P (or_introl eq_refl))).
      lia. }
    f_equal. apply IH.
    + now apply StronglySorted_inv in H1.
    + now apply StronglySorted_inv in H2.
    + now apply Permutation_cons_inv in P.
Qed.

Lemma sort_dates_perm_eq (l l' : list Date) :
  Permutation l l' -> sort_by (fun d => d) l = sort_by (fun d => d) l'.
Proof.
  intros P. apply sorted_perm_unique; try apply sort_dates_sorted.
  rewrite !sort_by_perm. exact P.
Qed.

(** X1: the periods depend only on which dates were recorded and how often,
    not on the order of the records nor on anything else in them. *)
Theorem identify_periods_order_independent :
  forall (rows rows' : list Observation) (cd cd' : list CyclePhase),
    Permutation (map date rows) (map date rows') ->
    identify_periods (loaded rows cd) = identify_periods (loaded rows' cd').
Proof.
  intros rows rows' cd cd' P.
  rewrite !identify_periods_runs. now rewrite (sort_dates_perm_eq _ _ P).
Qed.

Lemma identify_periods_order_independent_witness :
  identify_periods (loaded scenario_rows [])
  = identify_periods (loaded (rev scenario_rows) scenario_phases).
Proof.
  apply identify_periods_order_independent.
  vm_compute. apply Permutation_rev.
Defined.

(** X3: parsing then segmenting: for a non-empty record list the periods are
    those of the records as they were given, so [identify_periods] never
    fails after a parse that found records. *)
Theorem parse_then_identify :
  forall (self : Processor) (records : list Observation),
    records <> [] ->
    identify_periods (snd (parse_health_data self records))
    = identify_periods (loaded records []).
Proof.
  intros self records Hne. destruct records as [|o records]; [congruence|].
  cbn [parse_health_data snd].
  apply (identify_periods_order_independent
           (sort_by date (o :: records)) (o :: records)
           (self_cycle_data self) []).
  apply Permutation_map, sort_by_perm.
Qed.

Lemma parse_then_identify_witness :
  identify_periods (snd (parse_health_data __init__ scenario_rows))
  = identify_periods (loaded scenario_rows []).
Proof. apply parse_then_identify. discriminate. Defined.

Lemma sum_durations_runs (cs : list (list Date)) :
  sum (map duration (map period_of_run cs)) = Z.of_nat (length (concat cs)).
Proof.
  induction cs as [|c cs IH]; [reflexivity|].
  cbn [map concat]. rewrite sum_cons, IH, length_app.
  unfold period_of_run; cbn [duration]. lia.
Qed.

(** X4: every record is counted in exactly one period: the durations add up
    to the number of records. *)
Theorem durations_add_up :
  forall (rows : list Observation) (cd : list CyclePhase),
  exists ps,
    identify_periods (loaded rows cd) = Ok ps
    /\ sum (map duration ps) = Z.of_nat (length rows).
Proof.
  intros rows cd.
  destruct (identify_periods_spec rows cd) as (cs & Hcs & HP & _).
  exists (map period_of_run cs). split; [exact Hcs|].
  rewrite sum_durations_runs, (Permutation_length HP). now rewrite length_map.
Qed.

(** X5: every recorded date lies within a period of the result, and every
    period starts and ends on a recorded date. *)
Theorem periods_cover_records :
  forall (rows : list Observation) (cd : list CyclePhase),
  exists ps,
    identify_periods (loaded rows cd) = Ok ps
    /\ Forall (fun o => Exists (fun p => within p (date o) = true) ps) rows
    /\ Forall (fun p => In (start p) (map date rows)
                        /\ In (end_ p) (map date rows)) ps.
Proof.
  intros rows cd.
  destruct (identify_periods_spec rows cd) as (cs & Hcs & HP & _ & Hall & _).
  exists (map period_of_run cs). split; [exact Hcs|].
  rewrite Forall_forall in Hall. split.
  - apply Forall_forall. intros o Ho.
    assert (Hd : In (date o) (concat cs)).
    { apply (Permutation_in _ (Permutation_sym HP)). now apply in_map. }
    apply in_concat in Hd as (c & Hc & Hd).
    apply Exists_exists. exists (period_of_run c).
    split; [now apply in_map|].
    apply within_run; [apply (Hall c Hc) | exact Hd].
  - apply Forall_forall. intros p Hp.
    apply in_map_iff in Hp as (c & <- & Hc).
    destruct (Hall c Hc) as [Hne _].
    destruct c as [|d ds]; [now elim Hne|].
    unfold period_of_run; cbn [start end_ hd].
    split; apply (Permutation_in _ HP); apply in_concat; exists (d :: ds);
      (split; [exact Hc|]).
    + now left.
    + destruct (exists_last (l := d :: ds) ltac:(discriminate)) as (l' & a & E).
      rewrite E, last_last. apply in_or_app. right. now left.
Qed.

Lemma tight_span (c : list Date) :
  c <> [] -> tight c -> last c 0 - hd 0 c <= 2 * (Z.of_nat (length c) - 1).
Proof.
  induction c as [|x c IH]; intros Hne Ht; [congruence|].
  destruct c as [|y c]; [simpl; lia|].
  destruct Ht as [Hxy Ht].
  specialize (IH ltac:(discriminate) Ht).
  change (last (x :: y :: c) 0) with (last (y :: c) 0).
  cbn [hd length] in *. lia.
Qed.

Lemma increasing_span (c : list Date) :
  c <> [] -> StronglySorted Z.le c -> NoDup c ->
  Z.of_nat (length c) - 1 <= last c 0 - hd 0 c.
Proof.
  induction c as [|x c IH]; intros Hne Hs Hnd; [congruence|].
  destruct c as [|y c]; [simpl; lia|].
  pose proof (sorted_head_le _ _ Hs y (or_intror (or_introl eq_refl))) as Hxy.
  inversion Hnd as [|? ? Hx Hnd']; subst.
  assert (x <> y) by (intros ->; apply Hx; now left).
  apply StronglySorted_inv in Hs as [Hs _].
  specialize (IH ltac:(discriminate) Hs Hnd').
  change (last (x :: y :: c) 0) with (last (y :: c) 0).
  cbn [hd length] in *. lia.
Qed.

Lemma NoDup_concat_each {A : Type} (cs : list (list A)) :
  NoDup (concat cs) -> Forall (@NoDup A) cs.
Proof.
  induction cs as [|c cs IH]; intros H; constructor.
  - exact (NoDup_app_remove_r _ _ H).
  - apply IH. exact (NoDup_app_remove_l _ _ H).
Qed.

(** X6: how far a period can stretch: its last day is at most 2 days per
    further record after its first day; and when no date is recorded twice
    it holds at most one record per day of its span. *)
Theorem period_span_bounds :
  forall (rows : list Observation) (cd : list CyclePhase),
  exists ps,
    identify_periods (loaded rows cd) = Ok ps
    /\ Forall (fun p => 1 <= duration p
                        /\ end_ p - start p <= 2 * (duration p - 1)) ps
    /\ (NoDup (map date rows) ->
        Forall (fun p => duration p <= end_ p - start p + 1) ps).
Proof.
  intros rows cd. eexists. split; [apply identify_periods_runs|].
  set (l := sort_by (fun d => d) (map date rows)).
  pose proof (runs_nonempty_tight l) as Ht.
  rewrite Forall_forall in Ht. split.
  - apply Forall_forall. intros p Hp.
    apply in_map_iff in Hp as (c & <- & Hc).
    destruct (Ht c Hc) as [Hne Htc].
    pose proof (tight_span c Hne Htc).
    unfold period_of_run; cbn [start end_ duration].
    destruct c; [now elim Hne | cbn [length] in *; lia].
  - intros Hnd.
    assert (Hl : NoDup (concat (runs l))).
    { rewrite runs_concat. subst l.
      eapply Permutation_NoDup; [|exact Hnd].
      symmetry. apply sort_by_perm. }
    pose proof (NoDup_concat_each _ Hl) as Hcs.
    destruct (runs_sorted l (sort_dates_sorted _)) as [_ Hs].
    rewrite Forall_forall in Hcs, Hs.
    apply Forall_forall. intros p Hp.
    apply in_map_iff in Hp as (c & <- & Hc).
    destruct (Hs c Hc) as [Hne Hsc].
    pose proof (increasing_span c Hne Hsc (Hcs c Hc)).
    unfold period_of_run; cbn [start end_ duration]. lia.
Qed.

Lemma period_span_bounds_witness :
  exists ps,
    identify_periods (loaded skipped_day_rows []) = Ok ps
    /\ Forall (fun p => duration p <= end_ p - start p + 1) ps.
Proof.
  destruct (period_span_bounds skipped_day_rows []) as (ps & H & _ & Hn).
  exists ps. split; [exact H|]. apply Hn.
  vm_compute. repeat constructor; simpl; intuition discriminate.
Defined.

(** ** Further properties of the Cycle Phase Calculator *)

Lemma last_nonempty_default {A : Type} (l : list A) (a b : A) :
  l <> [] -> last l a = last l b.
Proof.
  induction l as [|x l IH]; intros Hne; [congruence|].
  destruct l as [|y l]; [reflexivity|].
  change (last (x :: y :: l) a) with (last (y :: l) a).
  change (last (x :: y :: l) b) with (last (y :: l) b).
  apply IH. discriminate.
Qed.

Lemma consecutive_sum (periods : list Period) :
  forall (i : nat) (p : Period),
    sum (map cycle_length (consecutive i (p :: periods)))
    = start (last (p :: periods) p) - start p.
Proof.
  induction periods as [|q periods IH]; intros i p.
  - cbn. lia.
  - rewrite consecutive_step. cbn [map]. rewrite sum_cons, IH.
    change (last (p :: q :: periods) p) with (last (q :: periods) p).
    rewrite (last_nonempty_default (q :: periods) p q) by discriminate.
    cbn [phase_of cycle_length]. lia.
Qed.

(** X8: the cycle lengths add up to the days from the first period start to
    the last; so the mean cycle length depends only on those two dates and
    on the number of periods. *)
Theorem cycle_lengths_telescope :
  forall (self : Processor) (p : Period) (periods : list Period),
  exists phases self',
    calculate_cycle_phases self (p :: periods) = Ok (phases, self')
    /\ sum (map cycle_length phases)
       = start (last (p :: periods) p) - start p
    /\ mean_cycle_length phases
       = int_truediv (start (last (p :: periods) p) - start p)
           (Z.of_nat (length periods)).
Proof.
  intros self p periods. eexists _, _.
  split; [apply calculate_cycle_phases_consecutive|].
  split; [apply consecutive_sum|].
  unfold mean_cycle_length.
  rewrite consecutive_sum, consecutive_length.
  do 2 f_equal. cbn [length]. lia.
Qed.

(** X9: the phases chain: each one's next period is the period of the phase
    after it, and the cycle numbers count up from 1. *)
Theorem phases_chain :
  forall (self : Processor) (periods : list Period),
  exists phases self',
    calculate_cycle_phases self periods = Ok (phases, self')
    /\ (forall i c, nth_error phases i = Some c ->
          cycle_number c = Z.of_nat i + 1)
    /\ (forall i c c',
          nth_error phases i = Some c -> nth_error phases (S i) = Some c' ->
          next_period_date c = period_start c').
Proof.
  intros self periods. eexists _, _.
  split; [apply calculate_cycle_phases_consecutive|].
  assert (Hget : forall i c,
             nth_error (consecutive 0 periods) i = Some c ->
             exists p q, nth_error periods i = Some p
                         /\ nth_error periods (S i) = Some q
                         /\ c = phase_of i p q).
  { intros i c Hc.
    assert (Hi : (i < length (consecutive 0 periods))%nat)
      by (apply nth_error_Some; congruence).
    rewrite consecutive_length in Hi.
    destruct (nth_error periods i) as [p|] eqn:Ep;
      [|apply nth_error_None in Ep; lia].
    destruct (nth_error periods (S i)) as [q|] eqn:Eq;
      [|apply nth_error_None in Eq; lia].
    exists p, q. split; [reflexivity|]. split; [reflexivity|].
    rewrite (consecutive_nth periods 0 i p q Ep Eq) in Hc.
    now inversion Hc. }
  split.
  - intros i c Hc. destruct (Hget i c Hc) as (p & q & _ & _ & ->). reflexivity.
  - intros i c c' Hc Hc'.
    destruct (Hget i c Hc) as (p & q & _ & Hq & ->).
    destruct (Hget (S i) c' Hc') as (p' & q' & Hp' & _ & ->).
    cbn [phase_of next_period_date period_start]. congruence.
Qed.

(** ** Further properties of the calendar generator *)

(** Whenever the forecast loop returns, it has made some number of turns,
    each moving the anchor by [int(avg_cycle_length)]. *)
Lemma forecast_loop_extends (months_future : Z) (avg : float)
    (last_period : CyclePhase) (today : Date) (fuel : nat) :
  forall (current_date : Date) (n : Z) (cal0 cal : list Event),
    forecast_loop fuel months_future avg last_period today current_date n cal0
    = Ok cal ->
    exists (k : nat) (step : Z),
      (k <> 0%nat -> float_to_int avg = Ok step)
      /\ cal = cal0 ++ forecast_turns k avg last_period today current_date step.
Proof.
  induction fuel as [|fuel IH]; intros current_date n cal0 cal;
    cbn [forecast_loop]; [discriminate|].
  destruct (int_div_float (months_future * 30) avg) as [bound| |];
    try discriminate.
  destruct (int_lt_float n bound).
  - destruct (float_to_int avg) as [step| |] eqn:Es; try discriminate.
    intros H. apply IH in H as (k & step' & Hk & ->).
    exists (S k), step. split; [reflexivity|].
    assert (E : forecast_turns k avg last_period today (current_date + step) step'
                = forecast_turns k avg last_period today (current_date + step) step).
    { destruct k as [|k]; [reflexivity|].
      specialize (Hk ltac:(discriminate)). congruence. }
    rewrite E. cbn [forecast_turns]. unfold forecast_events.
    destruct (current_date - 14 >? today), (current_date - 7 >? today);
      cbn [app]; rewrite <- ?app_assoc; reflexivity.
  - intros H. inversion H; subst. exists 0%nat, 0.
    split; [congruence|]. cbn. now rewrite app_nil_r.
Qed.

(** Whenever [generate_ical_calendar] returns, the calendar is the
    historical events followed by some forecast turns from the next-period
    date of the latest cycle. *)
Lemma generate_ical_calendar_shape (fuel : nat) (cycle_phases : list CyclePhase)
    (months_future : Z) (today : Date) (cal : list Event) :
  generate_ical_calendar fuel cycle_phases months_future today = Ok cal ->
  cycle_phases = [] /\ cal = []
  \/ exists avg last_period k step,
       mean_cycle_length cycle_phases = Ok avg
       /\ latest cycle_phases = Some last_period
       /\ float_to_int avg = Ok step
       /\ cal = flat_map historical_events cycle_phases
                ++ forecast_turns k avg last_period today
                     (next_period_date last_period) step.
Proof.
  unfold generate_ical_calendar. rewrite historical_fold. cbn [app].
  destruct cycle_phases as [|c cs]; [intros H; inversion H; now left|].
  fold (mean_cycle_length (c :: cs)).
  destruct (mean_cycle_length (c :: cs)) as [avg| |] eqn:Eavg; try discriminate.
  intros H. right.
  apply forecast_loop_extends in H as (k & step' & Hk & ->).
  destruct (int_truediv_to_int _ _ _ Eavg) as [step Hstep].
  exists avg, (max_by period_start c cs), k, step.
  split; [reflexivity|]. split; [reflexivity|]. split; [exact Hstep|].
  f_equal.
  destruct k as [|k]; [reflexivity|].
  specialize (Hk ltac:(discriminate)). congruence.
Qed.

Lemma events_of_app (k : category) (a b : list Event) :
  events_of k (a ++ b) = events_of k a ++ events_of k b.
Proof. apply filter_app. Qed.

Lemma historical_events_length (cycle_phases : list CyclePhase) :
  length (flat_map historical_events cycle_phases)
  = (4 * length cycle_phases)%nat.
Proof.
  induction cycle_phases as [|c cs IH]; [reflexivity|].
  cbn [flat_map]. rewrite length_app, IH. cbn [length historical_events]. lia.
Qed.

Lemma historical_menstruation (cycle_phases : list CyclePhase) :
  map (fun e => (dtstart e, dtend e))
    (events_of MENSTRUATION (flat_map historical_events cycle_phases))
  = map (fun c => (period_start c, Some (period_end c + 1))) cycle_phases.
Proof.
  induction cycle_phases as [|c cs IH]; [reflexivity|].
  cbn [flat_map]. rewrite events_of_app, map_app, IH. reflexivity.
Qed.

Lemma historical_no_predicted (k : category) (cycle_phases : list CyclePhase) :
  k = MENSTRUATION_PREDICTED \/ k = OVULATION_PREDICTED
  \/ k = PMS_ALERT_PREDICTED ->
  events_of k (flat_map historical_events cycle_phases) = [].
Proof.
  intros Hk. induction cycle_phases as [|c cs IH]; [reflexivity|].
  cbn [flat_map]. rewrite events_of_app, IH.
  destruct Hk as [-> | [-> | ->]]; reflexivity.
Qed.

Lemma forecast_turns_predicted (avg : float) (last_period : CyclePhase)
    (today step : Z) (k : nat) :
  forall current_date,
    Forall (fun e => is_predicted e = true)
      (forecast_turns k avg last_period today current_date step).
Proof.
  induction k as [|k IH]; intros current_date; [constructor|].
  cbn [forecast_turns]. apply Forall_app. split; [|apply IH].
  unfold forecast_events.
  destruct (current_date - 14 >? today), (current_date - 7 >? today);
    repeat constructor.
Qed.

Lemma forecast_turns_no_historical (avg : float) (last_period : CyclePhase)
    (today step : Z) (k : nat) (current_date : Date) :
  events_of MENSTRUATION
    (forecast_turns k avg last_period today current_date step) = [].
Proof.
  apply filter_none. intros e He.
  pose proof (forecast_turns_predicted avg last_period today step k
                current_date) as H.
  rewrite Forall_forall in H. specialize (H e He).
  unfold is_predicted in H.
  destruct (categories e); try discriminate; reflexivity.
Qed.

Lemma forecast_turns_ovulation (avg : float) (last_period : CyclePhase)
    (today step : Z) (k : nat) :
  forall current_date,
    map dtstart (events_of OVULATION_PREDICTED
                   (forecast_turns k avg last_period today current_date step))
    = map (fun a => a - 14)
        (filter (fun a => a - 14 >? today) (anchors k current_date step)).
Proof.
  induction k as [|k IH]; intros current_date; [reflexivity|].
  cbn [forecast_turns anchors filter]. rewrite events_of_app, map_app, IH.
  unfold forecast_events.
  destruct (current_date - 14 >? today), (current_date - 7 >? today);
    reflexivity.
Qed.

Lemma forecast_turns_pms (avg : float) (last_period : CyclePhase)
    (today step : Z) (k : nat) :
  forall current_date,
    map dtstart (events_of PMS_ALERT_PREDICTED
                   (forecast_turns k avg last_period today current_date step))
    = map (fun a => a - 7)
        (filter (fun a => a - 7 >? today) (anchors k current_date step)).
Proof.
  induction k as [|k IH]; intros current_date; [reflexivity|].
  cbn [forecast_turns anchors filter]. rewrite events_of_app, map_app, IH.
  unfold forecast_events.
  destruct (current_date - 14 >? today), (current_date - 7 >? today);
    reflexivity.
Qed.

Lemma forecast_turns_starts (avg : float) (last_period : CyclePhase)
    (today step : Z) (k : nat) (current_date : Date) :
  map dtstart (predicted_periods
                 (forecast_turns k avg last_period today current_date step))
  = anchors k current_date step.
Proof.
  rewrite predicted_periods_turns, map_map. cbn [future_period dtstart].
  apply map_id.
Qed.

Lemma in_shifted_filter (off today d : Z) (l : list Z) :
  In d (map (fun a => a - off) (filter (fun a => a - off >? today) l))
  <-> In (d + off) l /\ today < d.
Proof.
  rewrite in_map_iff. split.
  - intros (a & <- & Ha). apply filter_In in Ha as [Ha Hgt].
    apply Z.gtb_lt in Hgt. split; [|lia].
    now replace (a - off + off) with a by lia.
  - intros [Hin Hgt]. exists (d + off). split; [lia|].
    apply filter_In. split; [exact Hin|]. apply Z.gtb_lt. lia.
Qed.

(** X10: whatever the horizon and the day, a returned calendar begins with the
    four events of each historical cycle, in the order of the cycles, and
    everything after them is a prediction; its MENSTRUATION events are one
    per cycle, from the period start to the day after the period end. *)
Theorem calendar_keeps_history :
  forall (fuel : nat) (cycle_phases : list CyclePhase) (months_future : Z)
         (today : Date) (cal : list Event),
    generate_ical_calendar fuel cycle_phases months_future today = Ok cal ->
    firstn (4 * length cycle_phases) cal
    = flat_map historical_events cycle_phases
    /\ Forall (fun e => is_predicted e = true)
         (skipn (4 * length cycle_phases) cal)
    /\ map (fun e => (dtstart e, dtend e)) (events_of MENSTRUATION cal)
       = map (fun c => (period_start c, Some (period_end c + 1)))
           cycle_phases.
Proof.
  intros fuel cycle_phases months_future today cal H.
  apply generate_ical_calendar_shape in H
    as [[-> ->]|(avg & lp & k & step & _ & _ & _ & ->)].
  - repeat split; constructor.
  - rewrite <- historical_events_length.
    rewrite firstn_app, Nat.sub_diag, firstn_all, firstn_O, app_nil_r.
    rewrite skipn_app, Nat.sub_diag, skipn_all, skipn_O.
    split; [reflexivity|]. split; [apply forecast_turns_predicted|].
    now rewrite events_of_app, forecast_turns_no_historical, app_nil_r,
      historical_menstruation.
Qed.

Lemma calendar_keeps_history_witness :
  exists cal,
    generate_ical_calendar 3 scenario_phases 1 738900 = Ok cal
    /\ map (fun e => (dtstart e, dtend e)) (events_of MENSTRUATION cal)
       = [(738886, Some 738890)].
Proof.
  eexists. split; [vm_compute; reflexivity|].
  apply (calendar_keeps_history 3 scenario_phases 1 738900).
  vm_compute. reflexivity.
Defined.

(** X11: predicted markers are kept only when they lie after today: a returned
    calendar holds a predicted ovulation on day [d] exactly when [d] is
    after today and a predicted period starts 14 days later, and a
    predicted pre-menstrual alert on day [d] exactly when [d] is after
    today and a predicted period starts 7 days later. *)
Theorem predicted_markers_only_in_future :
  forall (fuel : nat) (cycle_phases : list CyclePhase) (months_future : Z)
         (today : Date) (cal : list Event),
    generate_ical_calendar fuel cycle_phases months_future today = Ok cal ->
    forall d,
      (In d (map dtstart (events_of OVULATION_PREDICTED cal))
       <-> In (d + 14) (map dtstart (predicted_periods cal)) /\ today < d)
      /\ (In d (map dtstart (events_of PMS_ALERT_PREDICTED cal))
          <-> In (d + 7) (map dtstart (predicted_periods cal)) /\ today < d).
Proof.
  intros fuel cycle_phases months_future today cal H d.
  apply generate_ical_calendar_shape in H
    as [[-> ->]|(avg & lp & k & step & _ & _ & _ & ->)].
  - cbn. tauto.
  - rewrite !events_of_app, predicted_periods_app,
      predicted_periods_historical.
    rewrite !historical_no_predicted by tauto.
    cbn [app].
    rewrite forecast_turns_starts, forecast_turns_ovulation, forecast_turns_pms.
    split; apply in_shifted_filter.
Qed.

Lemma predicted_markers_only_in_future_witness :
  exists cal,
    generate_ical_calendar 3 scenario_phases 1 738900 = Ok cal
    /\ (In 738928 (map dtstart (events_of OVULATION_PREDICTED cal))
        <-> In (738928 + 14) (map dtstart (predicted_periods cal))
            /\ 738900 < 738928).
Proof.
  eexists. split; [vm_compute; reflexivity|].
  apply (predicted_markers_only_in_future 3 scenario_phases 1 738900).
  vm_compute. reflexivity.
Defined.

(** ** The cycle the forecast and the summary start from *)

Lemma max_by_increasing {A : Type} (key : A -> Z) (cs : list A) :
  forall c,
    StronglySorted (fun a b => key a < key b) (c :: cs) ->
    max_by key c cs = last (c :: cs) c.
Proof.
  unfold max_by. induction cs as [|x cs IH]; intros c Hs; [reflexivity|].
  cbn [fold_left].
  apply StronglySorted_inv in Hs as [Hs Hall].
  inversion Hall as [|? ? Hcx _]; subst.
  destruct (Z.gtb_spec (key x) (key c)); [|lia].
  rewrite (IH x Hs).
  change (last (c :: x :: cs) c) with (last (x :: cs) c).
  apply last_nonempty_default. discriminate.
Qed.

Lemma consecutive_period_start (R : Z -> Prop) (l : list Period) :
  (forall p, In p l -> R (start p)) ->
  forall i, Forall (fun c => R (period_start c)) (consecutive i l).
Proof.
  induction l as [|p l IH]; intros H i; [constructor|].
  destruct l as [|q l]; [constructor|].
  rewrite consecutive_step. constructor.
  - apply H. now left.
  - apply IH. intros p' Hp'. apply H. now right.
Qed.

Lemma consecutive_increasing (ps : list Period) :
  StronglySorted (fun p q => start p < start q) ps ->
  forall i,
    StronglySorted (fun a b => period_start a < period_start b)
      (consecutive i ps).
Proof.
  induction 1 as [|p ps Hs IH Hall]; intros i; [constructor|].
  destruct ps as [|q ps]; [constructor|].
  rewrite consecutive_step. constructor; [apply IH|].
  apply (consecutive_period_start (fun s => start p < s)).
  rewrite Forall_forall in Hall. exact Hall.
Qed.

Lemma consecutive_last (front : list Period) (p q : Period) :
  forall i d,
    last (consecutive i (front ++ [p; q])) d
    = phase_of (i + length front) p q.
Proof.
  induction front as [|x front IH]; intros i d.
  - cbn. now rewrite Nat.add_0_r.
  - destruct front as [|y front].
    + cbn [app]. rewrite consecutive_step. cbn. do 2 f_equal. lia.
    + change ((x :: y :: front) ++ [p; q])
        with (x :: y :: (front ++ [p; q])).
      rewrite consecutive_step.
      change (y :: front ++ [p; q]) with ((y :: front) ++ [p; q]).
      assert (Hne : consecutive (S i) ((y :: front) ++ [p; q]) <> []).
      { intros E. apply (f_equal (@length _)) in E.
        rewrite consecutive_length, length_app in E. cbn in E. lia. }
      destruct (consecutive (S i) ((y :: front) ++ [p; q])) as [|c cs] eqn:E;
        [congruence|].
      change (last (phase_of i x y :: c :: cs) d) with (last (c :: cs) d).
      rewrite <- E, IH. cbn [length]. f_equal. lia.
Qed.

Lemma apart_starts_increasing (ps : list Period) :
  Forall (fun p => start p <= end_ p) ps ->
  StronglySorted (fun p q => end_ p + 2 < start q) ps ->
  StronglySorted (fun p q => start p < start q) ps.
Proof.
  intros Hle Hss. induction Hss as [|x l Hs IH Hall]; [constructor|].
  inversion Hle as [|? ? Hx Hle']; subst.
  constructor; [exact (IH Hle')|].
  eapply Forall_impl; [|exact Hall]. cbv beta. intros; lia.
Qed.

(** On Period Segmenter output, the cycle [max(..., key=period_start)]
    picks is the one between the last two periods. *)
Lemma latest_of_periods (self : Processor) (ps front : list Period)
    (p q : Period) :
  identify_periods self = Ok ps -> ps = front ++ [p; q] ->
  latest (consecutive 0 ps) = Some (phase_of (length front) p q).
Proof.
  intros Hps E.
  destruct (identify_periods_apart self ps Hps) as [Hle Hss].
  pose proof (apart_starts_increasing ps Hle Hss) as Hinc.
  pose proof (consecutive_increasing ps Hinc 0%nat) as Hc.
  pose proof (consecutive_last front p q 0%nat) as Hlast.
  rewrite <- E in Hlast.
  destruct (consecutive 0 ps) as [|c cs] eqn:Ec.
  - apply (f_equal (@length _)) in Ec.
    rewrite consecutive_length, E, length_app in Ec. cbn in Ec. lia.
  - cbn [latest]. rewrite (max_by_increasing period_start cs c Hc).
    now rewrite Hlast.
Qed.

(** X12: on Period Segmenter output with at least two periods, every returned
    calendar anchors its predictions on the start of the last recorded
    period, which so appears as the first predicted period, and gives them
    the duration of the period before the last; the last period's own
    duration is not used. *)
Theorem forecast_anchor_is_last_period :
  forall (self : Processor) (ps front : list Period) (p q : Period),
    identify_periods self = Ok ps -> ps = front ++ [p; q] ->
    exists phases self',
      calculate_cycle_phases self ps = Ok (phases, self')
      /\ forall (fuel : nat) (months_future : Z) (today : Date)
                (cal : list Event) (e : Event),
           generate_ical_calendar fuel phases months_future today = Ok cal ->
           nth_error (predicted_periods cal) 0 = Some e ->
           dtstart e = start q
           /\ dtend e = Some (start q + duration p + 1).
Proof.
  intros self ps front p q Hps E. eexists _, _.
  split; [apply calculate_cycle_phases_consecutive|].
  intros fuel months_future today cal e Hgen He.
  pose proof (latest_of_periods self ps front p q Hps E) as Hlatest.
  apply generate_ical_calendar_shape in Hgen
    as [[_ ->]|(avg & lp & k & step & _ & Hlp & _ & ->)];
    [discriminate|].
  rewrite Hlatest in Hlp. injection Hlp as <-.
  rewrite predicted_periods_app, predicted_periods_historical,
    predicted_periods_turns in He.
  cbn [app phase_of next_period_date period_duration] in He.
  destruct k as [|k]; [discriminate|].
  cbn [anchors map nth_error] in He. injection He as <-.
  split; reflexivity.
Qed.

Lemma forecast_anchor_is_last_period_witness :
  exists phases self',
    calculate_cycle_phases (loaded scenario_rows []) scenario_periods
    = Ok (phases, self')
    /\ forall (fuel : nat) (months_future : Z) (today : Date)
              (cal : list Event) (e : Event),
         generate_ical_calendar fuel phases months_future today = Ok cal ->
         nth_error (predicted_periods cal) 0 = Some e ->
         dtstart e = 738914 /\ dtend e = Some (738914 + 4 + 1).
Proof.
  apply (forecast_anchor_is_last_period (loaded scenario_rows [])
           scenario_periods []
           {| start := 738886; end_ := 738889; duration := 4 |}
           {| start := 738914; end_ := 738917; duration := 4 |}).
  - reflexivity.
  - reflexivity.
Defined.

(** X13: on Period Segmenter output with at least two periods, what
    [print_summary] reports as the last period is the start of the period
    before the last, and its next period is the start of the last recorded
    period plus the truncated mean cycle length. *)
Theorem summary_of_periods :
  forall (self : Processor) (ps front : list Period) (p q : Period),
    identify_periods self = Ok ps -> ps = front ++ [p; q] ->
    exists phases self',
      calculate_cycle_phases self ps = Ok (phases, self')
      /\ forall avg_cycle avg_period,
           mean_cycle_length phases = Ok avg_cycle ->
           int_truediv (sum (map period_duration phases))
             (Z.of_nat (length phases)) = Ok avg_period ->
           exists step,
             float_to_int avg_cycle = Ok step
             /\ print_summary self'
                = Ok [ Texto_impreso "RESUMEN DEL CICLO MENSTRUAL";
                       Total_ciclos (length ps - 1);
                       Duracion_promedio_ciclo avg_cycle;
                       Duracion_promedio_periodo avg_period;
                       Ultimo_periodo (start p);
                       Proximo_periodo (start q + step) ].
Proof.
  intros self ps front p q Hps E. eexists _, _.
  split; [apply calculate_cycle_phases_consecutive|].
  intros avg_cycle avg_period Hc Hp.
  destruct (int_truediv_to_int _ _ _ Hc) as [step Hstep].
  exists step. split; [exact Hstep|].
  pose proof (latest_of_periods self ps front p q Hps E) as Hlatest.
  unfold print_summary. cbn [self_cycle_data].
  unfold mean_cycle_length in Hc.
  destruct (consecutive 0 ps) as [|c cs] eqn:Ec; [discriminate|].
  rewrite Hc, Hp, Hstep. cbn [latest] in Hlatest.
  injection Hlatest as ->.
  cbn [phase_of period_start next_period_date].
  rewrite <- Ec, consecutive_length. reflexivity.
Qed.

Lemma summary_of_periods_witness :
  exists phases self',
    calculate_cycle_phases (loaded scenario_rows []) scenario_periods
    = Ok (phases, self')
    /\ exists step,
         float_to_int (S754_finite false 7881299347898368 (-48)) = Ok step
         /\ print_summary self'
            = Ok [ Texto_impreso "RESUMEN DEL CICLO MENSTRUAL";
                   Total_ciclos (length scenario_periods - 1);
                   Duracion_promedio_ciclo
                     (S754_finite false 7881299347898368 (-48));
                   Duracion_promedio_periodo
                     (S754_finite false 4503599627370496 (-50));
                   Ultimo_periodo 738886;
                   Proximo_periodo (738914 + step) ].
Proof.
  destruct (summary_of_periods (loaded scenario_rows []) scenario_periods []
              {| start := 738886; end_ := 738889; duration := 4 |}
              {| start := 738914; end_ := 738917; duration := 4 |}
              eq_refl eq_refl) as (phases & self' & Hc & Hs).
  exists phases, self'. split; [exact Hc|].
  rewrite calculate_cycle_phases_consecutive in Hc.
  injection Hc as <- _.
  apply Hs; reflexivity.
Defined.

(** ** Horizons of no month, and what a run can end with *)

Lemma float_of_int_nonpos (n : Z) (x : float) :
  n <= 0 -> float_of_int n = Ok x ->
  (exists s, x = S754_zero s) \/ exists m e, x = S754_finite true m e.
Proof.
  intros Hn. unfold float_of_int, binary_normalize.
  destruct n as [|p|p]; [|lia|].
  - cbn. intros H; inversion H. left. now eexists.
  - unfold binary_round.
    destruct (shl_align p 0 _) as [mz ez].
    destruct (binary_round_aux_result true (Z.pos mz) ez loc_Exact ltac:(lia))
      as [[H _]|[(m & e & H)|H]]; rewrite H; cbn [is_infinite];
      intros H'; inversion H'; [left; now eexists | right; now eexists _, _].
Qed.

Lemma int_lt_float_nonpos (x : float) :
  (exists s, x = S754_zero s) \/ (exists m e, x = S754_finite true m e)
  \/ x = S754_infinity true ->
  int_lt_float 0 x = false.
Proof.
  intros [[s ->]|[(m & e & ->)| ->]]; [reflexivity| |reflexivity].
  unfold int_lt_float. destruct e as [|k|k].
  - apply Z.ltb_ge. rewrite Z.pow_0_r. lia.
  - apply Z.ltb_ge.
    assert (0 < 2 ^ Z.pos k) by (apply Z.pow_pos_nonneg; lia). nia.
  - reflexivity.
Qed.

(** X14: with a horizon of no month or less and a positive average, the loop
    makes no turn: the calendar is the historical events alone. *)
Theorem no_forecast_without_horizon :
  forall (fuel : nat) (cycle_phases : list CyclePhase) (months_future : Z)
         (today : Date) (avg x : float),
    mean_cycle_length cycle_phases = Ok avg ->
    positive_float avg = true ->
    months_future <= 0 ->
    float_of_int (months_future * 30) = Ok x ->
    generate_ical_calendar (S fuel) cycle_phases months_future today
    = Ok (flat_map historical_events cycle_phases).
Proof.
  intros fuel cycle_phases months_future today avg x Havg Hpos Hm Hx.
  destruct (positive_mean _ _ Havg Hpos) as (m & e & ->).
  unfold generate_ical_calendar. rewrite historical_fold. cbn [app].
  destruct cycle_phases as [|c cs]; [reflexivity|].
  fold (mean_cycle_length (c :: cs)). rewrite Havg.
  cbn [forecast_loop]. unfold int_div_float. rewrite Hx. cbn [is_zero].
  rewrite int_lt_float_nonpos; [reflexivity|].
  assert (Hn : months_future * 30 <= 0) by lia.
  destruct (float_of_int_nonpos _ _ Hn Hx) as [[s ->]|(mx & ex & ->)].
  - left. cbn. now eexists.
  - destruct (SFdiv_finite true false mx m ex e) as [[H _]|[(m' & e' & H)|H]];
      cbv zeta in H; rewrite H; cbn [xorb].
    + left. now eexists.
    + right. left. now eexists _, _.
    + right. now right.
Qed.

Lemma no_forecast_without_horizon_witness :
  generate_ical_calendar 1 scenario_phases 0 738900
  = Ok (flat_map historical_events scenario_phases).
Proof.
  apply (no_forecast_without_horizon 0 scenario_phases 0 738900
           (S754_finite false 7881299347898368 (-48)) (S754_zero false)).
  - reflexivity.
  - reflexivity.
  - lia.
  - reflexivity.
Defined.

Lemma int_truediv_raises (a b : Z) (e : exn) :
  b <> 0 -> int_truediv a b = Raise e -> e = OverflowError.
Proof.
  intros Hb. unfold int_truediv.
  destruct (Z.eqb_spec b 0); [lia|].
  destruct (is_infinite _); congruence.
Qed.

Lemma int_truediv_fuel (a b : Z) : int_truediv a b <> OutOfFuel.
Proof.
  unfold int_truediv. destruct (b =? 0); [discriminate|].
  destruct (is_infinite _); discriminate.
Qed.

Lemma forecast_loop_at_worst_overflow (months_future : Z) (avg : float)
    (last_period : CyclePhase) (today : Date) (step : Z) :
  is_zero avg = false -> float_to_int avg = Ok step ->
  forall (fuel : nat) (current_date : Date) (n : Z) (cal : list Event),
    at_worst_overflow
      (forecast_loop fuel months_future avg last_period today current_date
         n cal).
Proof.
  intros Hz Hstep. induction fuel as [|fuel IH]; intros current_date n cal;
    cbn [forecast_loop]; [exact I|].
  unfold int_div_float. rewrite Hz.
  destruct (float_of_int (months_future * 30)) as [x|e|] eqn:Ex.
  - destruct (int_lt_float n (SFdiv prec emax x avg)); [|exact I].
    rewrite Hstep. apply IH.
  - apply float_of_int_raises in Ex. exact Ex.
  - exact I.
Qed.

(** X15: from the parsed records on.  Once [parse_health_data] has
    extracted at least one menstrual-flow record, the steps of [main] that
    follow it ([identify_periods], [calculate_cycle_phases],
    [print_summary], [generate_ical_calendar]) end with the summary and
    the calendar, or with an [OverflowError] of the float arithmetic, or
    are still in the forecast loop when the fuel is spent; none of them
    raises another exception.  (Reading the XML, where a malformed
    [startDate] raises, comes before and is not part of this.) *)
Theorem main_at_worst_overflow :
  forall (fuel : nat) (records : list Observation) (today : Date),
    records <> [] -> at_worst_overflow (main fuel records today).
Proof.
  intros fuel records today Hne. unfold main.
  rewrite (parse_then_identify __init__ records Hne), identify_periods_runs.
  set (ps := map period_of_run _).
  assert (Hps : identify_periods (loaded records []) = Ok ps)
    by apply identify_periods_runs.
  rewrite calculate_cycle_phases_consecutive. cbn [fst snd].
  destruct (identify_periods_apart _ ps Hps) as [Hle Hss].
  pose proof (consecutive_cycle_length ps Hle Hss 0%nat) as Hall.
  pose proof (sum_cycle_length_ge _ Hall) as Hs.
  unfold print_summary, generate_ical_calendar. cbn [self_cycle_data].
  destruct (consecutive 0 ps) as [|c cs]; [exact I|].
  set (phases := c :: cs) in *.
  set (count := Z.of_nat (length phases)) in *.
  assert (Hc : 0 < count) by (subst count phases; cbn [length]; lia).
  destruct (int_truediv (sum (map cycle_length phases)) count)
    as [avg|e|] eqn:Eavg;
    [| apply int_truediv_raises in Eavg; [exact Eavg | lia]
     | now apply int_truediv_fuel in Eavg ].
  destruct (int_truediv (sum (map period_duration phases)) count)
    as [avgp|e|] eqn:Eavgp;
    [| apply int_truediv_raises in Eavgp; [exact Eavgp | lia]
     | now apply int_truediv_fuel in Eavgp ].
  destruct (int_truediv_to_int _ _ _ Eavg) as [step Hstep]. rewrite Hstep.
  assert (Hb : 0 < count <= sum (map cycle_length phases)) by lia.
  pose proof (int_truediv_nonzero _ _ _ Hb Eavg) as Hz.
  pose proof (forecast_loop_at_worst_overflow 6 avg
                (max_by period_start c cs) today step Hz Hstep fuel
                (next_period_date (max_by period_start c cs)) 0
                (fold_left (fun cal cycle => cal ++ historical_events cycle)
                   phases [])) as H.
  destruct (forecast_loop _ _ _ _ _ _ _ _); exact H || exact I.
Qed.

Lemma main_at_worst_overflow_witness :
  at_worst_overflow (main 8 scenario_rows 738900).
Proof. apply main_at_worst_overflow. discriminate. Defined.

(** X16: when all the records make one period, a run prints the no-data line
    and saves a calendar without events, with no fuel needed. *)
Theorem main_single_period :
  forall (fuel : nat) (records : list Observation) (today : Date)
         (ps : list Period),
    records <> [] ->
    identify_periods (loaded records []) = Ok ps ->
    (length ps <= 1)%nat ->
    main fuel records today
    = Ok ([Texto_impreso "No hay datos de ciclo para mostrar"], []).
Proof.
  intros fuel records today ps Hne Hps Hlen. unfold main.
  rewrite (parse_then_identify __init__ records Hne), Hps.
  rewrite calculate_cycle_phases_consecutive.
  rewrite (consecutive_short 0 ps Hlen). reflexivity.
Qed.

Lemma main_single_period_witness :
  main 0 skipped_day_rows 738900
  = Ok ([Texto_impreso "No hay datos de ciclo para mostrar"], []).
Proof.
  apply (main_single_period 0 skipped_day_rows 738900
           [ {| start := 738886; end_ := 738888; duration := 2 |} ]).
  - discriminate.
  - reflexivity.
  - simpl. lia.
Defined.

(** ** A date recorded once more *)

Lemma insert_repeated (l : list Date) (d : Date) :
  StronglySorted Z.le l -> In d l ->
  exists pre post,
    l = pre ++ d :: post
    /\ insert_by (fun d => d) d l = pre ++ d :: d :: post.
Proof.
  induction l as [|x l IH]; intros Hs Hd; [destruct Hd|].
  cbn [insert_by].
  destruct (Z.leb_spec d x) as [Hle|Hgt].
  - pose proof (sorted_head_le _ _ Hs d Hd).
    assert (x = d) as -> by lia. now exists [], l.
  - destruct Hd as [->|Hd]; [lia|].
    apply StronglySorted_inv in Hs as [Hs _].
    destruct (IH Hs Hd) as (pre & post & -> & E).
    exists (x :: pre), post. split; [reflexivity|]. now rewrite E.
Qed.

Lemma runs_repeated (pre : list Date) (d : Date) (post : list Date) :
  map (fun c => (hd 0 c, last c 0)) (runs (pre ++ d :: d :: post))
  = map (fun c => (hd 0 c, last c 0)) (runs (pre ++ d :: post)).
Proof.
  induction pre as [|x pre IH].
  - cbn [app]. rewrite runs_step.
    destruct (Z.gtb_spec (d - d) 2); [lia|].
    destruct (runs_cons_shape d post) as (c & cs & E). rewrite E.
    reflexivity.
  - assert (Hy : exists y t1 t2,
               pre ++ d :: d :: post = y :: t1 /\ pre ++ d :: post = y :: t2).
    { destruct pre as [|z pre]; cbn [app]; now eexists _, _, _. }
    destruct Hy as (y & t1 & t2 & E1 & E2).
    cbn [app]. rewrite E1, E2 in *. rewrite !runs_step.
    destruct (y - x >? 2).
    + cbn [map]. now rewrite IH.
    + destruct (runs_cons_shape y t1) as (c1 & cs1 & R1).
      destruct (runs_cons_shape y t2) as (c2 & cs2 & R2).
      rewrite R1, R2 in *. cbn [map hd] in *.
      injection IH as Hl Hcs. rewrite Hcs. do 2 f_equal.
      exact Hl.
Qed.

(** X7: recording once more a date that is already recorded moves no period:
    the periods start and end where they did, and one of them counts one
    record more. *)
Theorem repeated_record_keeps_boundaries :
  forall (rows : list Observation) (o : Observation) (cd : list CyclePhase),
    In (date o) (map date rows) ->
    exists ps ps',
      identify_periods (loaded rows cd) = Ok ps
      /\ identify_periods (loaded (o :: rows) cd) = Ok ps'
      /\ map (fun p => (start p, end_ p)) ps'
         = map (fun p => (start p, end_ p)) ps
      /\ sum (map duration ps') = sum (map duration ps) + 1.
Proof.
  intros rows o cd Hin. eexists _, _.
  split; [apply identify_periods_runs|].
  split; [apply identify_periods_runs|].
  split.
  - cbn [map sort_by]. set (l := sort_by (fun d => d) (map date rows)).
    assert (Hd : In (date o) l)
      by (apply (Permutation_in _ (Permutation_sym (sort_by_perm _ _)));
          exact Hin).
    destruct (insert_repeated l (date o) (sort_dates_sorted _) Hd)
      as (pre & post & E & ->).
    rewrite E, !map_map. unfold period_of_run; cbn [start end_].
    apply runs_repeated.
  - rewrite !sum_durations_runs, !runs_concat.
    rewrite !(Permutation_length (sort_by_perm _ _)).
    cbn [map length]. lia.
Qed.

Lemma repeated_record_keeps_boundaries_witness :
  exists ps ps',
    identify_periods (loaded scenario_rows []) = Ok ps
    /\ identify_periods (loaded (observation_on 738887 :: scenario_rows) [])
       = Ok ps'
    /\ map (fun p => (start p, end_ p)) ps'
       = map (fun p => (start p, end_ p)) ps
    /\ sum (map duration ps') = sum (map duration ps) + 1.
Proof.
  apply (repeated_record_keeps_boundaries scenario_rows
           (observation_on 738887) []).
  vm_compute. tauto.
Defined.

(** ** The fertile window in the calendar *)

Lemma historical_fertility (cycle_phases : list CyclePhase) :
  events_of FERTILITY (flat_map historical_events cycle_phases)
  = map (fun c => {| dtstart := fertile_window_start c;
                     dtend := Some (fertile_window_end c + 1);
                     summary := "Ventana fertil";
                     description := Texto "Periodo de mayor fertilidad";
                     categories := FERTILITY |}) cycle_phases.
Proof.
  induction cycle_phases as [|c cs IH]; [reflexivity|].
  cbn [flat_map]. rewrite events_of_app, IH. reflexivity.
Qed.

(** X17: for phases made by [calculate_cycle_phases], a returned calendar has
    one fertile-window event per historical cycle and none for a predicted
    one; each covers 7 days, the last of them 13 days before the next
    period. *)
Theorem fertile_window_events :
  forall (self : Processor) (periods : list Period),
  exists phases self',
    calculate_cycle_phases self periods = Ok (phases, self')
    /\ forall (fuel : nat) (months_future : Z) (today : Date)
              (cal : list Event),
         generate_ical_calendar fuel phases months_future today = Ok cal ->
         map (fun e => (dtstart e, dtend e)) (events_of FERTILITY cal)
         = map (fun c => (next_period_date c - 19,
                          Some (next_period_date c - 12))) phases.
Proof.
  intros self periods. eexists _, _.
  split; [apply calculate_cycle_phases_consecutive|].
  intros fuel months_future today cal H.
  apply generate_ical_calendar_shape in H
    as [[-> ->]|(avg & lp & k & step & _ & _ & _ & ->)]; [reflexivity|].
  rewrite events_of_app, historical_fertility.
  assert (Hf : events_of FERTILITY
                 (forecast_turns k avg lp today (next_period_date lp) step)
               = []).
  { apply filter_none. intros e He.
    pose proof (forecast_turns_predicted avg lp today step k
                  (next_period_date lp)) as Hp.
    rewrite Forall_forall in Hp. specialize (Hp e He).
    unfold is_predicted in Hp.
    destruct (categories e); try discriminate; reflexivity. }
  rewrite Hf, app_nil_r, map_map. cbn [dtstart dtend].
  apply map_ext_in. intros c Hc.
  pose proof (consecutive_Forall
                (fun c => fertile_window_start c = next_period_date c - 19
                          /\ fertile_window_end c + 1
                             = next_period_date c - 12)
                ltac:(intros; cbn; lia) periods 0%nat) as Hm.
  rewrite Forall_forall in Hm. destruct (Hm c Hc) as [-> ->]. reflexivity.
Qed.
